(** * UltraCDC cut-point kernel of go-cdc-chunkers: a shallow embedding

    The package [chunkers/ultracdc] is present in several revisions:

    - the byte-indexed revision (the file of unknown name, [part_000]):
      [Algorithm(options, data, n)] slides an 8-byte window one byte at a
      time and returns [i + j] on a mask hit.  It is embedded in
      [Module UltraCDC].
    - the word-scanning revision (first text of [ultracdc.go]):
      [Algorithm(options, data, n, pass)] reads [data] as little-endian
      64-bit words through [bytesToUint64] and returns [i + 8] on a mask
      hit.  It is embedded in [Module UltraCDCWords].
    - the second text of [ultracdc.go]: the same kernel with the loop
      bound [i < n-8] and self-checks added, embedded in
      [Module UltraCDCWordsChecked]; its [Validate] and [DefaultOptions]
      are those of the first text.

    [bytesToUint64] (unsafe.go) is embedded with the word-scanning
    revision, [getCuts] and [getByte] (ultracdc_test.go) after the
    kernels.

    Go's [int] is modelled by [Z]: for options accepted by [Validate]
    (every size at most 2^30) and [n <= len(data)] no [int] operation of
    the kernel leaves the 64-bit range.  [fmt.Printf] calls only print and
    are left out. *)

From Stdlib Require Import ZArith List Bool Lia.
From Stdlib.Strings Require Import Byte.
Import ListNotations.
Local Open Scope Z_scope.

(** ** Go values shared by the revisions *)

(** The numeric value of a byte. *)
Definition byte_val (b : byte) : Z := Z.of_N (Byte.to_N b).

(** The conversion [uint64(x)] of an [int]. *)
Definition uint64 (z : Z) : Z := z mod 2 ^ 64.

(** The conversion [byte(x)] of an unsigned integer. *)
Definition low_byte (z : Z) : Z := z mod 2 ^ 8.

(** Number of one bits among the [w] low bits of [z]. *)
Fixpoint ones (w : nat) (z : Z) : Z :=
  match w with
  | O => 0
  | S w' => Z.b2z (Z.testbit z (Z.of_nat w')) + ones w' z
  end.

(** [bits.OnesCount8] and [bits.OnesCount64]. *)
Definition OnesCount8 (z : Z) : Z := ones 8 z.
Definition OnesCount64 (z : Z) : Z := ones 64 z.

(** A Go slice [[]byte], seen from its first element: [elems] are the
    [len] elements that indexing reaches, [spare] the elements of the
    backing array between [len] and [cap], which only re-slicing
    reaches.  [make([]byte, k)] has an empty [spare]. *)
Record slice : Type := mkSlice { elems : list byte; spare : list byte }.

Definition len (s : slice) : Z := Z.of_nat (length (elems s)).
Definition cap (s : slice) : Z := Z.of_nat (length (elems s ++ spare s)).

(** [make([]byte, k)] filled with the bytes of [l] ([k = length l]). *)
Definition make (l : list byte) : slice := mkSlice l [].

(** The index expression [s[i]]: [None] stands for the run-time panic
    "index out of range". *)
Definition index (s : slice) (i : Z) : option byte :=
  if (0 <=? i) && (i <? len s) then nth_error (elems s) (Z.to_nat i) else None.

(** The slice expression [s[lo:hi]]: for a slice the upper bound is the
    capacity; [None] stands for "slice bounds out of range".  The kernel
    only reads the result, so its bytes are all that is kept. *)
Definition reslice (s : slice) (lo hi : Z) : option (list byte) :=
  if (0 <=? lo) && (lo <=? hi) && (hi <=? cap s)
  then Some (firstn (Z.to_nat (hi - lo)) (skipn (Z.to_nat lo) (elems s ++ spare s)))
  else None.

(** [bytes.Equal]. *)
Fixpoint bytes_Equal (a b : list byte) : bool :=
  match a, b with
  | [], [] => true
  | x :: a', y :: b' => Byte.eqb x y && bytes_Equal a' b'
  | _, _ => false
  end.

(** How a call of a kernel ends.  [Unfinished] belongs to the model only:
    the loop functions below recurse on a bound of the number of
    iterations, and [Unfinished] is what they give when the bound is too
    small; [scan_finishes] and [words_scan_finishes] show that the bounds
    which the two [Algorithm]s pass never are. *)
Inductive outcome : Type :=
| Return (cutpoint : Z)
| Panic
| Unfinished.

(** [chunkers.ChunkerOpts] (declared in the parent package). *)
Record ChunkerOpts : Type := mkOpts { MinSize : Z; NormalSize : Z; MaxSize : Z }.

(** The Hamming distance of the bytes of a window to the pattern 0xAA
    repeated, computed from scratch. *)
Definition hamming0xAA (w : list byte) : Z :=
  fold_left (fun d v => d + OnesCount8 (Z.lxor (byte_val v) 0xAA)) w 0.

(** One evaluation of the mask test [(uint64(dist) & mask) == 0] at outer
    position [at_i] and inner position [at_j]. *)
Record probe : Type := mkProbe { at_i : Z; at_j : Z; seen_dist : Z; used_mask : Z }.

Definition hits (p : probe) : bool := Z.land (uint64 (seen_dist p)) (used_mask p) =? 0.

(** What the inner loop [for j := 0; j < 8; j++] does to the outer one:
    it returns a cutpoint, panics on an index, or runs to its end and
    leaves [dist]. *)
Inductive slid : Type :=
| Cut (cutpoint : Z)
| OutOfRange
| Slid (dist : Z).

(** ** The byte-indexed revision *)
Module UltraCDC.

Inductive error : Type := ErrNormalSize | ErrMinSize | ErrMaxSize.

Definition DefaultOptions : ChunkerOpts :=
  {| MinSize := 2 * 1024; NormalSize := 10 * 1024; MaxSize := 64 * 1024 |}.

(** [Validate]: [None] is Go's [nil]. *)
Definition Validate (options : ChunkerOpts) : option error :=
  if (NormalSize options =? 0) || (NormalSize options <? 64)
     || (NormalSize options >? 1024 * 1024 * 1024)
  then Some ErrNormalSize
  else if (MinSize options <? 64) || (MinSize options >? 1024 * 1024 * 1024)
          || (MinSize options >=? NormalSize options)
  then Some ErrMinSize
  else if (MaxSize options <? 64) || (MaxSize options >? 1024 * 1024 * 1024)
          || (MaxSize options <=? NormalSize options)
  then Some ErrMaxSize
  else None.

Definition maskS : Z := 0x2F.
Definition maskL : Z := 0x2C.
Definition lowEntropyStringThreshold : Z := 64.

(** Modelled from the spec: the 256-entry table [hammingDistanceTo0xAA]
    is declared in a file that is not among the sources.  The spec gives
    its entries as the Hamming weight of [b xor 0xAA], and so does the
    POPCNT line the kernel keeps in a comment beside the lookup. *)
Definition hammingDistanceTo0xAA (b : byte) : Z :=
  OnesCount8 (Z.lxor (byte_val b) 0xAA).

Section Kernel.

Variable data : slice.
(** [n] and [normalSize] as the [switch] leaves them. *)
Variables n normalSize : Z.

(** The inner loop, started with [left = 8] and [j = 0]: [left] counts
    the iterations that remain, so [j < 8] holds exactly while
    [left] is not [O]. *)
Fixpoint slide (left : nat) (i j dist mask : Z) : slid :=
  match left with
  | O => Slid dist
  | S left' =>
      if Z.land (uint64 dist) mask =? 0 then Cut (i + j)
      else
        match index data (i + j - 8), index data (i + j) with
        | Some outByte, Some inByte =>
            let update := hammingDistanceTo0xAA inByte - hammingDistanceTo0xAA outByte in
            slide left' i (j + 1) (dist + update) mask
        | _, _ => OutOfRange
        end
  end.

(** The outer loop [for i := minSize + 8; i <= n-8; i += 8], from the
    state it has when the condition is evaluated. *)
Fixpoint scan (fuel : nat) (i dist lowEntropyCount mask : Z)
         (outBufWin : list byte) : outcome :=
  match fuel with
  | O => Unfinished
  | S fuel' =>
      if i <=? n - 8 then
        let mask := if i >=? normalSize then maskL else mask in
        match reslice data i (i + 8) with
        | None => Panic
        | Some inBufWin =>
            if bytes_Equal inBufWin outBufWin then
              let lowEntropyCount := lowEntropyCount + 1 in
              if lowEntropyCount >=? lowEntropyStringThreshold then Return (i + 8)
              else scan fuel' (i + 8) dist lowEntropyCount mask outBufWin
            else
              match slide 8 i 0 dist mask with
              | Cut cutpoint => Return cutpoint
              | OutOfRange => Panic
              | Slid dist' => scan fuel' (i + 8) dist' 0 mask inBufWin
              end
        end
      else Return n
  end.

(** The same two loops, also listing every mask test they evaluate, in
    order. *)
Fixpoint slide_probes (left : nat) (i j dist mask : Z) : list probe :=
  match left with
  | O => []
  | S left' =>
      mkProbe i j dist mask ::
      if Z.land (uint64 dist) mask =? 0 then []
      else
        match index data (i + j - 8), index data (i + j) with
        | Some outByte, Some inByte =>
            let update := hammingDistanceTo0xAA inByte - hammingDistanceTo0xAA outByte in
            slide_probes left' i (j + 1) (dist + update) mask
        | _, _ => []
        end
  end.

Fixpoint scan_probes (fuel : nat) (i dist lowEntropyCount mask : Z)
         (outBufWin : list byte) : list probe :=
  match fuel with
  | O => []
  | S fuel' =>
      if i <=? n - 8 then
        let mask := if i >=? normalSize then maskL else mask in
        match reslice data i (i + 8) with
        | None => []
        | Some inBufWin =>
            if bytes_Equal inBufWin outBufWin then
              let lowEntropyCount := lowEntropyCount + 1 in
              if lowEntropyCount >=? lowEntropyStringThreshold then []
              else scan_probes fuel' (i + 8) dist lowEntropyCount mask outBufWin
            else
              slide_probes 8 i 0 dist mask ++
              match slide 8 i 0 dist mask with
              | Slid dist' => scan_probes fuel' (i + 8) dist' 0 mask inBufWin
              | _ => []
              end
        end
      else []
  end.

End Kernel.

(** The [switch] on [n]: [None] when it returns [n] at once, else the
    pair of [n] and [normalSize] it leaves. *)
Definition clamp (options : ChunkerOpts) (n : Z) : option (Z * Z) :=
  if n <=? MinSize options then None
  else if n >=? MaxSize options then Some (MaxSize options, NormalSize options)
  else if n <=? NormalSize options then Some (n, n)
  else Some (n, NormalSize options).

(** A bound of the number of outer iterations. *)
Definition fuel_for (options : ChunkerOpts) (n : Z) : nat :=
  Z.to_nat (n - MinSize options).

Definition Algorithm (options : ChunkerOpts) (data : slice) (n : Z) : outcome :=
  if n >? len data then Panic
  else
    let minSize := MinSize options in
    match clamp options n with
    | None => Return n
    | Some (n, normalSize) =>
        match reslice data minSize (minSize + 8) with
        | None => Panic
        | Some outBufWin =>
            let dist := hamming0xAA outBufWin in
            scan data n normalSize (fuel_for options n) (minSize + 8) dist 0 maskS outBufWin
        end
    end.

(** The mask tests a call evaluates, in order. *)
Definition probes (options : ChunkerOpts) (data : slice) (n : Z) : list probe :=
  if n >? len data then []
  else
    let minSize := MinSize options in
    match clamp options n with
    | None => []
    | Some (n, normalSize) =>
        match reslice data minSize (minSize + 8) with
        | None => []
        | Some outBufWin =>
            let dist := hamming0xAA outBufWin in
            scan_probes data n normalSize (fuel_for options n) (minSize + 8) dist 0 maskS outBufWin
        end
    end.

(** The [normalSize] the scan compares [i] with. *)
Definition effectiveNormalSize (options : ChunkerOpts) (n : Z) : Z :=
  if (MinSize options <? n) && (n <=? NormalSize options) then n else NormalSize options.

End UltraCDC.

(** ** The word-scanning revision *)
Module UltraCDCWords.

Inductive error : Type :=
| ErrNormalSize | ErrMinSize | ErrMaxSize | ErrMinSizeNotMultipleOf8.

Definition DefaultOptions : ChunkerOpts :=
  {| MinSize := 2 * 1024; NormalSize := 8 * 1024; MaxSize := 64 * 1024 |}.

(** [Validate]; Go's [%] is the truncated remainder [Z.rem]. *)
Definition Validate (options : ChunkerOpts) : option error :=
  if negb (Z.rem (MinSize options) 8 =? 0) then Some ErrMinSizeNotMultipleOf8
  else if (NormalSize options =? 0) || (NormalSize options <? 64)
          || (NormalSize options >? 1024 * 1024 * 1024)
  then Some ErrNormalSize
  else if (MinSize options <? 64) || (MinSize options >? 1024 * 1024 * 1024)
          || (MinSize options >=? NormalSize options)
  then Some ErrMinSize
  else if (MaxSize options <? 64) || (MaxSize options >? 1024 * 1024 * 1024)
          || (MaxSize options <=? NormalSize options)
  then Some ErrMaxSize
  else None.

Definition Pattern : Z := 0xAAAAAAAAAAAAAAAA.
Definition MaskS : Z := 0x2F.
Definition MaskL : Z := 0x2C.
Definition LEST : Z := 64.

(** The little-endian 64-bit word held in (at most) 8 bytes. *)
Fixpoint le_word (bs : list byte) : Z :=
  match bs with
  | [] => 0
  | b :: bs' => Z.lor (byte_val b) (Z.shiftl (le_word bs') 8)
  end.

Fixpoint words (count : nat) (bs : list byte) : list Z :=
  match count with
  | O => []
  | S count' => le_word (firstn 8 bs) :: words count' (skipn 8 bs)
  end.

(** [bytesToUint64] (unsafe.go): the first [len(b) / 8] little-endian
    words of [b]; [nil] when [len(b) < 8]. *)
Definition bytesToUint64 (b : slice) : list Z :=
  let n := len b in
  if n <? 8 then [] else words (Z.to_nat (Z.quot n 8)) (elems b).

(** The index expression [src[k]] of a [[]uint64]. *)
Definition word_at (src : list Z) (k : Z) : option Z :=
  if (0 <=? k) && (k <? Z.of_nat (length src)) then nth_error src (Z.to_nat k) else None.

(** Modelled from the spec: the table [hammingDistanceTable] is declared
    in a file that is not among the sources.  The spec gives the update of
    [dist] as the Hamming weight of [inByte xor 0xAA] minus that of
    [outByte xor 0xAA]; the entry [[a][b]] is the Hamming distance of the
    bytes [a] and [b]. *)
Definition hammingDistanceTable (a b : Z) : Z := OnesCount8 (Z.lxor a b).

Section Kernel.

Variable src : list Z.
(** [n] and [NormalSize] as the [switch] leaves them. *)
Variables n NormalSize : Z.

(** The inner loop, started with [left = 8] and [j = 0]. *)
Fixpoint slide (left : nat) (i j dist mask inBufWin outBufWin : Z) : slid :=
  match left with
  | O => Slid dist
  | S left' =>
      if Z.land (uint64 dist) mask =? 0 then Cut (i + 8)
      else
        let inByte := low_byte (Z.shiftr inBufWin (Z.shiftl j 3)) in
        let outByte := low_byte (Z.shiftr outBufWin (Z.shiftl j 3)) in
        let update := hammingDistanceTable 0xAA inByte - hammingDistanceTable 0xAA outByte in
        slide left' i (j + 1) (dist + update) mask inBufWin outBufWin
  end.

(** The loop [for i < n], from the state it has when the condition is
    evaluated; [cnt] is a [uint32]. *)
Fixpoint scan (fuel : nat) (i k dist cnt mask outBufWin : Z) : outcome :=
  match fuel with
  | O => Unfinished
  | S fuel' =>
      if i <? n then
        let mask := if i =? NormalSize then MaskL else mask in
        if k >=? Z.of_nat (length src) then Return 0
        else
          match word_at src k with
          | None => Panic
          | Some inBufWin =>
              if Z.lxor outBufWin inBufWin =? 0 then
                let cnt := (cnt + 1) mod 2 ^ 32 in
                if cnt =? LEST then Return (i + 8)
                else scan fuel' (i + 8) (k + 1) dist cnt mask outBufWin
              else
                match slide 8 i 0 dist mask inBufWin outBufWin with
                | Cut cutpoint => Return cutpoint
                | OutOfRange => Panic
                | Slid dist' => scan fuel' (i + 8) (k + 1) dist' 0 mask inBufWin
                end
          end
      else Return n
  end.

(** The same two loops, listing every mask test they evaluate. *)
Fixpoint slide_probes (left : nat) (i j dist mask inBufWin outBufWin : Z) : list probe :=
  match left with
  | O => []
  | S left' =>
      mkProbe i j dist mask ::
      if Z.land (uint64 dist) mask =? 0 then []
      else
        let inByte := low_byte (Z.shiftr inBufWin (Z.shiftl j 3)) in
        let outByte := low_byte (Z.shiftr outBufWin (Z.shiftl j 3)) in
        let update := hammingDistanceTable 0xAA inByte - hammingDistanceTable 0xAA outByte in
        slide_probes left' i (j + 1) (dist + update) mask inBufWin outBufWin
  end.

Fixpoint scan_probes (fuel : nat) (i k dist cnt mask outBufWin : Z) : list probe :=
  match fuel with
  | O => []
  | S fuel' =>
      if i <? n then
        let mask := if i =? NormalSize then MaskL else mask in
        if k >=? Z.of_nat (length src) then []
        else
          match word_at src k with
          | None => []
          | Some inBufWin =>
              if Z.lxor outBufWin inBufWin =? 0 then
                let cnt := (cnt + 1) mod 2 ^ 32 in
                if cnt =? LEST then []
                else scan_probes fuel' (i + 8) (k + 1) dist cnt mask outBufWin
              else
                slide_probes 8 i 0 dist mask inBufWin outBufWin ++
                match slide 8 i 0 dist mask inBufWin outBufWin with
                | Slid dist' => scan_probes fuel' (i + 8) (k + 1) dist' 0 mask inBufWin
                | _ => []
                end
          end
      else []
  end.

End Kernel.

(** The [switch] on [n], as in the byte-indexed revision. *)
Definition clamp (options : ChunkerOpts) (n : Z) : option (Z * Z) :=
  if n <=? MinSize options then None
  else if n >=? MaxSize options then Some (MaxSize options, NormalSize options)
  else if n <=? NormalSize options then Some (n, n)
  else Some (n, NormalSize options).

Definition fuel_for (options : ChunkerOpts) (n : Z) : nat :=
  Z.to_nat (n - MinSize options).

(** [Algorithm]; the argument [pass] is only printed and is left out. *)
Definition Algorithm (options : ChunkerOpts) (data : slice) (n : Z) : outcome :=
  if n >? len data then Panic
  else
    let src := bytesToUint64 data in
    let i := MinSize options in
    match clamp options n with
    | None => Return n
    | Some (n, NormalSize) =>
        let k := Z.quot i 8 in
        match word_at src k with
        | None => Panic
        | Some outBufWin =>
            let dist := OnesCount64 (Z.lxor outBufWin Pattern) in
            scan src n NormalSize (fuel_for options n) (i + 8) (k + 1) dist 0 MaskS outBufWin
        end
    end.

Definition probes (options : ChunkerOpts) (data : slice) (n : Z) : list probe :=
  if n >? len data then []
  else
    let src := bytesToUint64 data in
    let i := MinSize options in
    match clamp options n with
    | None => []
    | Some (n, NormalSize) =>
        let k := Z.quot i 8 in
        match word_at src k with
        | None => []
        | Some outBufWin =>
            let dist := OnesCount64 (Z.lxor outBufWin Pattern) in
            scan_probes src n NormalSize (fuel_for options n) (i + 8) (k + 1) dist 0 MaskS outBufWin
        end
    end.

End UltraCDCWords.

(** ** Inputs used as examples *)

(** [k] zero bytes, the content of a fresh [make([]byte, k)]. *)
Definition zeros (k : N) : list byte := N.iter k (cons x00) [].

(** [k] copies of the byte [b]. *)
Definition fill (b : byte) (k : N) : list byte := N.iter k (cons b) [].

(** The smallest gap between sizes [Validate] lets through is used by
    [tiny]: 64 < 128 < 256. *)
Definition tiny : ChunkerOpts := {| MinSize := 64; NormalSize := 128; MaxSize := 256 |}.


(** Options whose [NormalSize] is not on the 8-byte stride of the scan,
    which visits 72, 80, 88, 96, 104, ... *)
Definition offbeat : ChunkerOpts := {| MinSize := 64; NormalSize := 100; MaxSize := 256 |}.

(** The closest sizes [Validate] lets through. *)
Definition narrow : ChunkerOpts := {| MinSize := 64; NormalSize := 65; MaxSize := 66 |}.

(** 256 bytes: 8 zero bytes and 8 bytes 0xFF, sixteen times.  Every byte
    is at distance 4 from 0xAA, so every window is at distance 32 and no
    mask test passes; no window equals the one before it. *)
Definition striped : slice :=
  make (N.iter 16 (fun l => zeros 8 ++ fill xff 8 ++ l) []).

(** 64 zero bytes, a window that equals the pattern, a window of zeros:
    the mask test passes at the first byte of the second window. *)
Definition early_hit : slice := make (zeros 64 ++ fill xaa 8 ++ zeros 8).

(** The bounds [Validate] checks on one size. *)
Definition in_range (z : Z) : Prop := 64 <= z <= 1024 * 1024 * 1024.

(** The options [Validate] of the byte-indexed revision accepts. *)
Definition valid (o : ChunkerOpts) : Prop :=
  in_range (MinSize o) /\ in_range (NormalSize o) /\ in_range (MaxSize o) /\
  MinSize o < NormalSize o < MaxSize o.

(** The 8 bytes [data[p : p+8]] when they lie among the live elements. *)
Definition window (d : slice) (p : Z) : list byte :=
  firstn 8 (skipn (Z.to_nat p) (elems d)).

(** The mask the byte-indexed scan uses at outer position [i]. *)
Definition mask_at (normalSize i : Z) : Z :=
  if i <? normalSize then UltraCDC.maskS else UltraCDC.maskL.

(** ** The second word-scanning text: the same kernel with self-checks *)

(** How a call of the self-checking kernel ends: its own
    [panic("why not?")] is told apart from the run-time panics of
    indexing. *)
Inductive checked : Type :=
| Returned (cutpoint : Z)
| IndexPanic
| WhyNot
| Unended.

(** What its inner loop does to the outer one. *)
Inductive slid_checked : Type :=
| CheckedReturn (cutpoint : Z)
| CheckedIndexPanic
| CheckedWhyNot
| CheckedSlid (dist : Z).

Module UltraCDCWordsChecked.

(** [Validate] and [DefaultOptions] are, letter for letter, those of the
    first text. *)
Definition Validate : ChunkerOpts -> option UltraCDCWords.error := UltraCDCWords.Validate.
Definition DefaultOptions : ChunkerOpts := UltraCDCWords.DefaultOptions.

Section Kernel.

Variable data : slice.
Variable src : list Z.
(** [n] and [NormalSize] as the [switch] leaves them. *)
Variables n NormalSize : Z.

(** The inner loop, started with [left = 8] and [j = 0]: after the mask
    test it gives up with 0 when [i+j+8 >= len(data)], reads the two bytes
    from [data] as well and panics when they are not the bytes it took
    from the words (the [range] over [data[i-8 : i+j+8+1]] before that
    panic only prints). *)
Fixpoint slide (left : nat) (i j dist mask inBufWin outBufWin : Z) : slid_checked :=
  match left with
  | O => CheckedSlid dist
  | S left' =>
      if Z.land (uint64 dist) mask =? 0 then CheckedReturn (i + 8)
      else
        let inByte := low_byte (Z.shiftr inBufWin (Z.shiftl j 3)) in
        let outByte := low_byte (Z.shiftr outBufWin (Z.shiftl j 3)) in
        if i + j + 8 >=? len data then CheckedReturn 0
        else
          match index data (i + j - 8) with
          | None => CheckedIndexPanic
          | Some outByte2 =>
              match index data (i + j) with
              | None => CheckedIndexPanic
              | Some inByte2 =>
                  if negb (outByte =? byte_val outByte2) || negb (inByte =? byte_val inByte2)
                  then
                    match reslice data (i - 8) (i + j + 8 + 1) with
                    | None => CheckedIndexPanic
                    | Some _ => CheckedWhyNot
                    end
                  else
                    let update := UltraCDCWords.hammingDistanceTable 0xAA inByte
                                  - UltraCDCWords.hammingDistanceTable 0xAA outByte in
                    slide left' i (j + 1) (dist + update) mask inBufWin outBufWin
              end
          end
  end.

(** The loop [for i < n-8]. *)
Fixpoint scan (fuel : nat) (i k dist cnt mask outBufWin : Z) : checked :=
  match fuel with
  | O => Unended
  | S fuel' =>
      if i <? n - 8 then
        let mask := if i =? NormalSize then UltraCDCWords.MaskL else mask in
        if k >=? Z.of_nat (length src) then Returned 0
        else
          match UltraCDCWords.word_at src k with
          | None => IndexPanic
          | Some inBufWin =>
              if Z.lxor outBufWin inBufWin =? 0 then
                let cnt := (cnt + 1) mod 2 ^ 32 in
                if cnt =? UltraCDCWords.LEST then Returned (i + 8)
                else scan fuel' (i + 8) (k + 1) dist cnt mask outBufWin
              else
                match slide 8 i 0 dist mask inBufWin outBufWin with
                | CheckedReturn cutpoint => Returned cutpoint
                | CheckedIndexPanic => IndexPanic
                | CheckedWhyNot => WhyNot
                | CheckedSlid dist' => scan fuel' (i + 8) (k + 1) dist' 0 mask inBufWin
                end
          end
      else Returned n
  end.

End Kernel.

(** [Algorithm]; the argument [pass] is only printed and is left out. *)
Definition Algorithm (options : ChunkerOpts) (data : slice) (n : Z) : checked :=
  if n >? len data then IndexPanic
  else
    let src := UltraCDCWords.bytesToUint64 data in
    let i := MinSize options in
    match UltraCDCWords.clamp options n with
    | None => Returned n
    | Some (n, NormalSize) =>
        let k := Z.quot i 8 in
        match UltraCDCWords.word_at src k with
        | None => IndexPanic
        | Some outBufWin =>
            let dist := OnesCount64 (Z.lxor outBufWin UltraCDCWords.Pattern) in
            scan data src n NormalSize (UltraCDCWords.fuel_for options n)
                 (i + 8) (k + 1) dist 0 UltraCDCWords.MaskS outBufWin
        end
    end.

End UltraCDCWordsChecked.

(** ** Helpers of the package's test file *)


(** The slice expression [s[lo:]], whose upper bound is [len(s)]. *)
Definition reslice_from (s : slice) (lo : Z) : option slice :=
  if (0 <=? lo) && (lo <=? len s)
  then Some (mkSlice (skipn (Z.to_nat lo) (elems s)) (spare s))
  else None.

(** How a call of [getCuts] ends.  The map [hashmap] only ever holds
    [true]; it is kept as the list of its keys, the latest first, and a key
    is in the map when it is in the list. *)
Inductive cut_run (digest : Type) : Type :=
| Cuts (cuts : list Z) (hashmap : list digest)
| CutsPanic
| CutsUnfinished.

Arguments Cuts {digest} cuts hashmap.
Arguments CutsPanic {digest}.
Arguments CutsUnfinished {digest}.

Section GetCuts.

(** The kernel behind the interface value [u]. *)
Variable Algorithm : ChunkerOpts -> slice -> Z -> outcome.
(** [Blake3OfBytes] hashes with an external library; [digest] stands for
    the strings it returns. *)
Variable digest : Type.
Variable Blake3OfBytes : list byte -> digest.
Variable opt : ChunkerOpts.

(** The loop [for len(data) > opt.MinSize], from the state it has when
    the condition is evaluated.  [j] is counted and never read. *)
Fixpoint getCuts_loop (fuel : nat) (data : slice) (last j : Z)
         (cuts : list Z) (hashmap : list digest) : cut_run digest :=
  match fuel with
  | O => CutsUnfinished
  | S fuel' =>
      if len data >? MinSize opt then
        match Algorithm opt data (len data) with
        | Panic => CutsPanic
        | Unfinished => CutsUnfinished
        | Return offset =>
            if offset =? 0 then Cuts cuts hashmap
            else
              let cut := last + offset in
              let cuts := cuts ++ [cut] in
              match reslice data 0 offset with
              | None => CutsPanic
              | Some chunk =>
                  let hashmap := Blake3OfBytes chunk :: hashmap in
                  match reslice_from data offset with
                  | None => CutsPanic
                  | Some data' => getCuts_loop fuel' data' cut (j + 1) cuts hashmap
                  end
              end
        end
      else Cuts cuts hashmap
  end.

(** [getCuts]: every iteration that goes on shortens [data], so
    [len(data) + 1] bounds their number. *)
Definition getCuts (data : slice) : cut_run digest :=
  getCuts_loop (S (length (elems data))) data 0 0 [] [].

End GetCuts.

(** The differences between consecutive cuts, the first one taken from
    [last]: the lengths of the chunks. *)
Fixpoint gaps (last : Z) (cuts : list Z) : list Z :=
  match cuts with
  | [] => []
  | c :: cuts' => (c - last) :: gaps c cuts'
  end.

(** The chunks that [cuts] delimit in [l], the first one starting at
    [last]. *)
Fixpoint chunks (l : list byte) (last : Z) (cuts : list Z) : list (list byte) :=
  match cuts with
  | [] => []
  | c :: cuts' =>
      firstn (Z.to_nat (c - last)) (skipn (Z.to_nat last) l) :: chunks l c cuts'
  end.

(** The position the scan of [cuts] ends at. *)
Definition last_cut (last : Z) (cuts : list Z) : Z := List.last cuts last.

(** The cut the word-scanning kernel makes where the byte-indexed one
    cuts at [c]: the end of the word of the passing mask test when a test
    of [ps] passes, [c] itself otherwise. *)
Definition word_cut (ps : list probe) (c : Z) : Z :=
  if existsb hits ps then 8 * (c / 8) + 8 else c.

(** [k] times 8 zero bytes and 8 bytes 0xFF: no mask test passes on them
    and no window equals the one before it. *)
Definition stripes (k : N) : list byte :=
  N.iter k (fun l => zeros 8 ++ fill xff 8 ++ l) [].

(** The 80 bytes of [early_hit], 320 bytes of stripes, and 8 bytes of
    capacity to spare. *)
Definition mixed : slice := mkSlice (elems early_hit ++ stripes 20) (zeros 8).

(** Options with room for a low-entropy cut: 64 + 520 <= 1024. *)
Definition roomy : ChunkerOpts := {| MinSize := 64; NormalSize := 128; MaxSize := 1024 |}.

(** Splits the boolean disjunctions that the tests of [Validate] leave. *)
Ltac split_bools :=
  repeat match goal with
         | E : (_ || _)%bool = true |- _ => apply orb_true_iff in E; destruct E
         | E : (_ || _)%bool = false |- _ => apply orb_false_iff in E; destruct E
         end.

(** * Options and validation *)

Lemma Validate_nil_valid (o : ChunkerOpts) :
  UltraCDC.Validate o = None <-> valid o.
Proof.
  unfold UltraCDC.Validate, valid, in_range.
  destruct o as [mn nm mx]; cbn [MinSize NormalSize MaxSize].
  repeat match goal with
         | |- context [if ?c then _ else _] => destruct c eqn:?
         end;
    split; intros H; try discriminate; try reflexivity;
    repeat match goal with
           | E : (_ || _)%bool = true |- _ => apply orb_true_iff in E; destruct E
           | E : (_ || _)%bool = false |- _ => apply orb_false_iff in E; destruct E
           end; lia.
Qed.



Lemma rem8_zero_iff (z : Z) : Z.rem z 8 = 0 <-> z mod 8 = 0.
Proof.
  rewrite Z.rem_divide by lia. rewrite Z.mod_divide by lia. reflexivity.
Qed.

(** X6: the word-scanning revision does ask for a multiple of 8: its
    [Validate] returns [nil] exactly when the bounds hold and [MinSize] is
    divisible by 8. *)
Lemma Validate_words_nil_iff (o : ChunkerOpts) :
  UltraCDCWords.Validate o = None <-> valid o /\ (MinSize o) mod 8 = 0.
Proof.
  unfold UltraCDCWords.Validate, valid, in_range.
  destruct o as [mn nm mx]; cbn [MinSize NormalSize MaxSize].
  rewrite <- rem8_zero_iff.
  destruct (Z.rem mn 8 =? 0) eqn:R; cbn [negb].
  - apply Z.eqb_eq in R.
    repeat match goal with
           | |- context [if ?c then _ else _] => destruct c eqn:?
           end;
      split; intros H; try discriminate; try reflexivity;
      repeat match goal with
             | E : (_ || _)%bool = true |- _ => apply orb_true_iff in E; destruct E
             | E : (_ || _)%bool = false |- _ => apply orb_false_iff in E; destruct E
             end; try lia; repeat split; lia.
  - apply Z.eqb_neq in R. split; [discriminate|]. intros [_ D]. contradiction.
Qed.



(** X7: the word-scanning revision has the defaults 2 KiB / 8 KiB /
    64 KiB, which its [Validate] accepts. *)
Lemma DefaultOptions_words :
  UltraCDCWords.DefaultOptions = {| MinSize := 2048; NormalSize := 8192; MaxSize := 65536 |} /\
  UltraCDCWords.Validate UltraCDCWords.DefaultOptions = None.
Proof. split; reflexivity. Qed.

(** * Slices *)

Lemma bytes_Equal_true (a b : list byte) : bytes_Equal a b = true -> a = b.
Proof.
  revert b; induction a as [|x a IH]; intros [|y b]; cbn; intros H;
    try discriminate; try reflexivity.
  apply andb_true_iff in H. destruct H as [Hx Hab].
  apply Byte.byte_dec_bl in Hx. subst y. f_equal. now apply IH.
Qed.

Lemma cap_ge_len (s : slice) : len s <= cap s.
Proof. unfold len, cap. rewrite length_app. lia. Qed.

Lemma reslice_inside (s : slice) (lo hi : Z) :
  0 <= lo -> lo <= hi -> hi <= cap s ->
  reslice s lo hi =
  Some (firstn (Z.to_nat (hi - lo)) (skipn (Z.to_nat lo) (elems s ++ spare s))).
Proof.
  intros H0 H1 H2. unfold reslice.
  destruct (0 <=? lo) eqn:A; [|lia].
  destruct (lo <=? hi) eqn:B; [|lia].
  destruct (hi <=? cap s) eqn:C; [|lia]. reflexivity.
Qed.

Lemma reslice_outside (s : slice) (lo hi : Z) :
  cap s < hi -> reslice s lo hi = None.
Proof.
  intros H. unfold reslice.
  destruct (hi <=? cap s) eqn:C; [lia|].
  now rewrite andb_false_r.
Qed.

Lemma index_inside (s : slice) (i : Z) :
  0 <= i < len s -> index s i = nth_error (elems s) (Z.to_nat i).
Proof.
  intros H. unfold index.
  destruct (0 <=? i) eqn:A; [|lia]. destruct (i <? len s) eqn:B; [|lia]. reflexivity.
Qed.

Lemma index_inside_some (s : slice) (i : Z) :
  0 <= i < len s -> exists b, index s i = Some b.
Proof.
  intros H. rewrite index_inside by exact H.
  destruct (nth_error (elems s) (Z.to_nat i)) eqn:E; [eauto|].
  apply nth_error_None in E. unfold len in H. lia.
Qed.

Lemma reslice_window (s : slice) (p : Z) :
  0 <= p -> p + 8 <= len s -> reslice s p (p + 8) = Some (window s p).
Proof.
  intros H0 H1. pose proof (cap_ge_len s).
  rewrite reslice_inside by lia. f_equal. unfold window.
  replace (Z.to_nat (p + 8 - p)) with 8%nat by lia.
  rewrite skipn_app, firstn_app, length_skipn.
  unfold len in H1.
  replace (8 - (length (elems s) - Z.to_nat p))%nat with 0%nat by lia.
  cbn [firstn]. now rewrite app_nil_r.
Qed.

Lemma skipn_cons_nth {A : Type} (l : list A) (q : nat) (a : A) :
  nth_error l q = Some a -> skipn q l = a :: skipn (S q) l.
Proof.
  revert l; induction q as [|q IH]; intros [|x l] H; cbn in H; try discriminate.
  - now inversion H.
  - cbn [skipn]. rewrite (IH l H). reflexivity.
Qed.

(** Sliding the window by one byte changes its distance to the pattern by
    the weight of the byte that enters minus that of the byte that
    leaves. *)
Lemma hamming_slide (l : list byte) (q : nat) (a b : byte) :
  nth_error l q = Some a -> nth_error l (q + 8) = Some b ->
  hamming0xAA (firstn 8 (skipn (S q) l)) =
  hamming0xAA (firstn 8 (skipn q l))
  + (UltraCDC.hammingDistanceTo0xAA b - UltraCDC.hammingDistanceTo0xAA a).
Proof.
  intros Ha Hb.
  rewrite (skipn_cons_nth l q a Ha).
  assert (Hb' : nth_error (skipn (S q) l) 7 = Some b).
  { rewrite nth_error_skipn. rewrite <- Hb. f_equal. lia. }
  destruct (skipn (S q) l) as [|x0 [|x1 [|x2 [|x3 [|x4 [|x5 [|x6 [|x7 r]]]]]]]];
    cbn in Hb'; try discriminate.
  inversion Hb'; subst x7.
  unfold hamming0xAA, UltraCDC.hammingDistanceTo0xAA. cbn [firstn fold_left]. lia.
Qed.

(** * The loops of the byte-indexed kernel *)

Section ScanFacts.

Variable data : slice.
Variables n normalSize : Z.
Hypothesis n_within : n <= len data.

Lemma slide_in_range (left : nat) (i j dist mask : Z) :
  8 <= i -> 0 <= j -> i + j + Z.of_nat left <= len data ->
  UltraCDC.slide data left i j dist mask <> OutOfRange.
Proof.
  revert j dist.
  induction left as [|left IH]; intros j dist Hi Hj Hlen; cbn [UltraCDC.slide].
  - discriminate.
  - destruct (Z.land (uint64 dist) mask =? 0); [discriminate|].
    destruct (index_inside_some data (i + j - 8)) as [o Ho]; [lia|].
    destruct (index_inside_some data (i + j)) as [b Hb]; [lia|].
    rewrite Ho, Hb. apply IH; lia.
Qed.

Lemma slide_cut (left : nat) (i j dist mask c : Z) :
  UltraCDC.slide data left i j dist mask = Cut c -> i + j <= c < i + j + Z.of_nat left.
Proof.
  revert j dist.
  induction left as [|left IH]; intros j dist H; cbn [UltraCDC.slide] in H.
  - discriminate.
  - destruct (Z.land (uint64 dist) mask =? 0).
    + inversion H; lia.
    + destruct (index data (i + j - 8)); [|discriminate].
      destruct (index data (i + j)); [|discriminate].
      apply IH in H. lia.
Qed.

(** The scan never indexes or slices out of range. *)
Lemma scan_in_range (fuel : nat) (i dist lec mask : Z) (out : list byte) :
  8 <= i -> UltraCDC.scan data n normalSize fuel i dist lec mask out <> Panic.
Proof.
  revert i dist lec mask out.
  induction fuel as [|fuel IH]; intros i dist lec mask out Hi; cbn [UltraCDC.scan].
  - discriminate.
  - destruct (i <=? n - 8) eqn:C; [|discriminate].
    apply Z.leb_le in C.
    rewrite reslice_window by lia.
    destruct (bytes_Equal (window data i) out).
    + destruct (lec + 1 >=? UltraCDC.lowEntropyStringThreshold); [discriminate|].
      apply IH; lia.
    + pose proof (slide_in_range 8 i 0 dist
                    (if i >=? normalSize then UltraCDC.maskL else mask)) as S.
      destruct (UltraCDC.slide data 8 i 0 dist _) eqn:E.
      * discriminate.
      * exfalso. apply S; try lia. reflexivity.
      * apply IH; lia.
Qed.

(** The bound on the iterations that [Algorithm] passes is enough. *)
Lemma scan_finishes (fuel : nat) (i dist lec mask : Z) (out : list byte) :
  (1 <= fuel)%nat -> n - i < 8 * Z.of_nat fuel ->
  UltraCDC.scan data n normalSize fuel i dist lec mask out <> Unfinished.
Proof.
  revert i dist lec mask out.
  induction fuel as [|fuel IH]; intros i dist lec mask out H1 H2; cbn [UltraCDC.scan].
  - lia.
  - destruct (i <=? n - 8) eqn:C; [|discriminate].
    apply Z.leb_le in C.
    destruct (reslice data i (i + 8)); [|discriminate].
    destruct (bytes_Equal l out).
    + destruct (lec + 1 >=? UltraCDC.lowEntropyStringThreshold); [discriminate|].
      apply IH; lia.
    + destruct (UltraCDC.slide data 8 i 0 dist _); try discriminate.
      apply IH; lia.
Qed.

(** Every cutpoint the scan returns lies between its start and [n]. *)
Lemma scan_bounds (fuel : nat) (i dist lec mask : Z) (out : list byte) (lo c : Z) :
  UltraCDC.scan data n normalSize fuel i dist lec mask out = Return c -> lo <= i -> lo <= n -> lo <= c <= n.
Proof.
  revert i dist lec mask out.
  induction fuel as [|fuel IH]; intros i dist lec mask out H Hi Hn; cbn [UltraCDC.scan] in H.
  - discriminate.
  - destruct (i <=? n - 8) eqn:C.
    2:{ inversion H; lia. }
    apply Z.leb_le in C.
    destruct (reslice data i (i + 8)); [|discriminate].
    destruct (bytes_Equal l out).
    + destruct (lec + 1 >=? UltraCDC.lowEntropyStringThreshold).
      * inversion H; lia.
      * apply IH in H; lia.
    + destruct (UltraCDC.slide data 8 i 0 dist _) eqn:E; try discriminate.
      * inversion H; subst. apply (slide_cut 8 i 0) in E. lia.
      * apply IH in H; lia.
Qed.

(** When the loop condition fails at once the scan returns [n]. *)
Lemma scan_past_end (fuel : nat) (i dist lec mask : Z) (out : list byte) :
  n - 8 < i -> UltraCDC.scan data n normalSize (S fuel) i dist lec mask out = Return n.
Proof.
  intros H. cbn [UltraCDC.scan].
  destruct (i <=? n - 8) eqn:C; [lia|reflexivity].
Qed.

End ScanFacts.

(** * The byte-indexed [Algorithm] as a whole *)

Lemma clamp_short (o : ChunkerOpts) (n : Z) :
  n <= MinSize o -> UltraCDC.clamp o n = None.
Proof.
  intros H. unfold UltraCDC.clamp. destruct (n <=? MinSize o) eqn:C; [reflexivity|lia].
Qed.

Lemma clamp_long (o : ChunkerOpts) (n : Z) :
  valid o -> MinSize o < n ->
  UltraCDC.clamp o n = Some (Z.min n (MaxSize o), UltraCDC.effectiveNormalSize o n).
Proof.
  intros (_ & _ & _ & Hord) H. unfold UltraCDC.clamp, UltraCDC.effectiveNormalSize.
  destruct (n <=? MinSize o) eqn:C; [lia|].
  destruct (MinSize o <? n) eqn:D; [|lia]. cbn [andb].
  destruct (n >=? MaxSize o) eqn:E.
  - destruct (n <=? NormalSize o) eqn:F; [lia|]. f_equal. f_equal. lia.
  - destruct (n <=? NormalSize o) eqn:F; f_equal; f_equal; lia.
Qed.

Lemma Algorithm_short (o : ChunkerOpts) (d : slice) (n : Z) :
  n <= len d -> n <= MinSize o -> UltraCDC.Algorithm o d n = Return n.
Proof.
  intros Hn Hs. unfold UltraCDC.Algorithm.
  destruct (n >? len d) eqn:C; [lia|]. now rewrite clamp_short.
Qed.

(** The defect of the initial window: [data[minSize : minSize+8]] is taken
    before any test that [n] reaches [minSize + 8]. *)
Lemma Algorithm_initial_window_panics (o : ChunkerOpts) (d : slice) (n : Z) :
  valid o -> n <= len d -> MinSize o < n -> cap d < MinSize o + 8 ->
  UltraCDC.Algorithm o d n = Panic.
Proof.
  intros Hv Hn Hl Hc. unfold UltraCDC.Algorithm.
  destruct (n >? len d) eqn:C; [lia|].
  rewrite clamp_long by assumption.
  now rewrite reslice_outside.
Qed.

Lemma Algorithm_long (o : ChunkerOpts) (d : slice) (n : Z) :
  valid o -> n <= len d -> MinSize o < n -> MinSize o + 8 <= cap d ->
  exists c, UltraCDC.Algorithm o d n = Return c /\
            MinSize o < c <= Z.min n (MaxSize o).
Proof.
  intros Hv Hn Hl Hc. pose proof Hv as (Hmin & _ & _ & Hord). unfold in_range in Hmin.
  unfold UltraCDC.Algorithm.
  destruct (n >? len d) eqn:C; [lia|].
  rewrite clamp_long by assumption.
  rewrite reslice_inside by lia.
  set (out := firstn _ _). set (m := Z.min n (MaxSize o)).
  assert (Hm : m <= len d) by lia.
  pose proof (scan_in_range d m (UltraCDC.effectiveNormalSize o n) Hm
                (UltraCDC.fuel_for o m) (MinSize o + 8) (hamming0xAA out) 0
                UltraCDC.maskS out ltac:(lia)) as NP.
  pose proof (scan_finishes d m (UltraCDC.effectiveNormalSize o n)
                (UltraCDC.fuel_for o m) (MinSize o + 8) (hamming0xAA out) 0
                UltraCDC.maskS out) as NU.
  unfold UltraCDC.fuel_for in *.
  destruct (UltraCDC.scan d m _ _ _ _ _ _ _) eqn:E.
  - exists cutpoint. split; [reflexivity|].
    apply (scan_bounds d m _ _ _ _ _ _ _ (MinSize o + 1)) in E; lia.
  - now contradiction NP.
  - exfalso. apply NU; [lia|lia|reflexivity].
Qed.

(** What a call does, case by case. *)
Lemma Algorithm_outcome (o : ChunkerOpts) (d : slice) (n : Z) :
  valid o -> n <= len d ->
  (n <= MinSize o /\ UltraCDC.Algorithm o d n = Return n) \/
  (MinSize o < n /\ cap d < MinSize o + 8 /\ UltraCDC.Algorithm o d n = Panic) \/
  (MinSize o < n /\ MinSize o + 8 <= cap d /\
   exists c, UltraCDC.Algorithm o d n = Return c /\ MinSize o < c <= Z.min n (MaxSize o)).
Proof.
  intros Hv Hn.
  destruct (Z_le_gt_dec n (MinSize o)) as [Hs|Hl].
  - left. split; [exact Hs|]. now apply Algorithm_short.
  - right. destruct (Z_lt_ge_dec (cap d) (MinSize o + 8)) as [Hc|Hc].
    + left. repeat split; try lia. now apply Algorithm_initial_window_panics; try lia.
    + right. repeat split; try lia. apply Algorithm_long; try assumption; lia.
Qed.

(** * Two inputs with the same first [n] bytes *)

Section SamePrefix.

Variables d1 d2 : slice.
Variable n : Z.
Hypothesis n_within1 : n <= len d1.
Hypothesis n_within2 : n <= len d2.
Hypothesis same_prefix :
  firstn (Z.to_nat n) (elems d1) = firstn (Z.to_nat n) (elems d2).

Lemma index_same (i : Z) : 0 <= i < n -> index d1 i = index d2 i.
Proof.
  intros H. rewrite !index_inside by lia.
  assert (L : (Z.to_nat i <? Z.to_nat n)%nat = true) by (apply Nat.ltb_lt; lia).
  pose proof (nth_error_firstn (Z.to_nat n) (elems d1) (Z.to_nat i)) as E1.
  pose proof (nth_error_firstn (Z.to_nat n) (elems d2) (Z.to_nat i)) as E2.
  rewrite L in E1, E2. rewrite <- E1, <- E2. now rewrite same_prefix.
Qed.

Lemma window_same (p : Z) : 0 <= p -> p + 8 <= n -> window d1 p = window d2 p.
Proof.
  intros H0 H1. unfold window. rewrite !firstn_skipn_comm.
  assert (F : forall l : list byte,
             firstn (Z.to_nat p + 8) l = firstn (Z.to_nat p + 8) (firstn (Z.to_nat n) l)).
  { intros l. rewrite firstn_firstn. f_equal. lia. }
  rewrite (F (elems d1)), (F (elems d2)). now rewrite same_prefix.
Qed.

Lemma slide_same (left : nat) (i j dist mask : Z) :
  8 <= i -> 0 <= j -> i + j + Z.of_nat left <= n ->
  UltraCDC.slide d1 left i j dist mask = UltraCDC.slide d2 left i j dist mask.
Proof.
  revert j dist. induction left as [|left IH]; intros j dist Hi Hj Hn; cbn [UltraCDC.slide].
  - reflexivity.
  - destruct (Z.land (uint64 dist) mask =? 0); [reflexivity|].
    rewrite (index_same (i + j - 8)), (index_same (i + j)) by lia.
    destruct (index d2 (i + j - 8)); [|reflexivity].
    destruct (index d2 (i + j)); [|reflexivity].
    apply IH; lia.
Qed.

Lemma scan_same (normalSize : Z) (fuel : nat) (i dist lec mask : Z) (out : list byte) :
  8 <= i ->
  UltraCDC.scan d1 n normalSize fuel i dist lec mask out =
  UltraCDC.scan d2 n normalSize fuel i dist lec mask out.
Proof.
  revert i dist lec mask out.
  induction fuel as [|fuel IH]; intros i dist lec mask out Hi; cbn [UltraCDC.scan].
  - reflexivity.
  - destruct (i <=? n - 8) eqn:C; [|reflexivity].
    apply Z.leb_le in C.
    rewrite !reslice_window by lia.
    rewrite (window_same i) by lia.
    destruct (bytes_Equal (window d2 i) out).
    + destruct (lec + 1 >=? UltraCDC.lowEntropyStringThreshold); [reflexivity|].
      apply IH; lia.
    + rewrite (slide_same 8 i 0) by lia.
      destruct (UltraCDC.slide d2 8 i 0 dist _) as [c| |dist'];
        [reflexivity|reflexivity|apply IH; lia].
Qed.

End SamePrefix.

(** Away from the defect of the initial window, the cut is a function of
    the first [n] bytes. *)
Lemma Algorithm_same_prefix (o : ChunkerOpts) (d1 d2 : slice) (n : Z) :
  valid o -> n <= len d1 -> n <= len d2 ->
  firstn (Z.to_nat n) (elems d1) = firstn (Z.to_nat n) (elems d2) ->
  MinSize o + 8 <= cap d1 -> MinSize o + 8 <= cap d2 ->
  UltraCDC.Algorithm o d1 n = UltraCDC.Algorithm o d2 n.
Proof.
  intros Hv H1 H2 Hp Hc1 Hc2.
  destruct (Z_le_gt_dec n (MinSize o)) as [Hs|Hl].
  { now rewrite !Algorithm_short. }
  pose proof Hv as (Hmin & _ & _ & Hord). unfold in_range in Hmin.
  unfold UltraCDC.Algorithm.
  destruct (n >? len d1) eqn:C1; [lia|]. destruct (n >? len d2) eqn:C2; [lia|].
  rewrite clamp_long by (assumption || lia).
  rewrite !reslice_inside by lia.
  set (m := Z.min n (MaxSize o)).
  assert (Hm : firstn (Z.to_nat m) (elems d1) = firstn (Z.to_nat m) (elems d2)).
  { assert (F : forall l : list byte,
               firstn (Z.to_nat m) l = firstn (Z.to_nat m) (firstn (Z.to_nat n) l)).
    { intros l. rewrite firstn_firstn. f_equal. lia. }
    rewrite (F (elems d1)), (F (elems d2)). now rewrite Hp. }
  destruct (Z_lt_ge_dec (m - 8) (MinSize o + 8)) as [Hshort|Hlong].
  - unfold UltraCDC.fuel_for.
    destruct (Z.to_nat (m - MinSize o)) as [|f] eqn:F; [lia|].
    rewrite !scan_past_end by lia. reflexivity.
  - pose proof (reslice_window d1 (MinSize o) ltac:(lia) ltac:(lia)) as W1.
    pose proof (reslice_window d2 (MinSize o) ltac:(lia) ltac:(lia)) as W2.
    rewrite reslice_inside in W1, W2 by (pose proof (cap_ge_len d1); pose proof (cap_ge_len d2); lia).
    inversion W1 as [W1']. inversion W2 as [W2']. rewrite W1', W2'.
    rewrite (window_same d1 d2 m) by (assumption || lia).
    apply scan_same; (assumption || lia).
Qed.

(** * The mask tests of the byte-indexed kernel *)

Section ProbeFacts.

Variable data : slice.
Variables n normalSize : Z.
Hypothesis n_within : n <= len data.

Lemma slide_probes_where (left : nat) (i j dist mask : Z) (p : probe) :
  In p (UltraCDC.slide_probes data left i j dist mask) ->
  at_i p = i /\ used_mask p = mask /\ j <= at_j p < j + Z.of_nat left.
Proof.
  revert j dist. induction left as [|left IH]; intros j dist H; cbn [UltraCDC.slide_probes] in H.
  - contradiction.
  - destruct H as [H|H].
    + subst p. cbn. lia.
    + destruct (Z.land (uint64 dist) mask =? 0); [contradiction|].
      destruct (index data (i + j - 8)); [|contradiction].
      destruct (index data (i + j)); [|contradiction].
      apply IH in H. lia.
Qed.

(** A mask test that passes ends the call with the cutpoint [i + j]. *)
Lemma slide_probes_hit (left : nat) (i j dist mask : Z) (p : probe) :
  In p (UltraCDC.slide_probes data left i j dist mask) -> hits p = true ->
  UltraCDC.slide data left i j dist mask = Cut (at_i p + at_j p).
Proof.
  revert j dist. induction left as [|left IH]; intros j dist H Hh;
    cbn [UltraCDC.slide_probes UltraCDC.slide] in *.
  - contradiction.
  - destruct H as [H|H].
    + subst p. unfold hits in Hh. cbn in Hh. now rewrite Hh.
    + destruct (Z.land (uint64 dist) mask =? 0); [contradiction|].
      destruct (index data (i + j - 8)); [|contradiction].
      destruct (index data (i + j)); [|contradiction].
      now apply IH.
Qed.

(** Inside the inner loop [dist] is the distance of the window that ends
    at [i + j]. *)
Lemma slide_probes_dist (left : nat) (i j dist mask : Z) (p : probe) :
  8 <= i -> 0 <= j -> i + j + Z.of_nat left <= len data ->
  dist = hamming0xAA (window data (i + j - 8)) ->
  In p (UltraCDC.slide_probes data left i j dist mask) ->
  seen_dist p = hamming0xAA (window data (at_i p + at_j p - 8)).
Proof.
  revert j dist. induction left as [|left IH]; intros j dist Hi Hj Hlen Hd H;
    cbn [UltraCDC.slide_probes] in H.
  - contradiction.
  - destruct H as [H|H].
    + subst p. cbn. exact Hd.
    + destruct (Z.land (uint64 dist) mask =? 0); [contradiction|].
      destruct (index data (i + j - 8)) as [o|] eqn:Eo; [|contradiction].
      destruct (index data (i + j)) as [b|] eqn:Eb; [|contradiction].
      rewrite index_inside in Eo, Eb by lia.
      refine (IH (j + 1) _ Hi ltac:(lia) ltac:(lia) _ H).
      subst dist. unfold window.
      replace (Z.to_nat (i + (j + 1) - 8)) with (S (Z.to_nat (i + j - 8))) by lia.
      symmetry. apply hamming_slide; [exact Eo|].
      rewrite <- Eb. f_equal. lia.
Qed.

Lemma slide_end_dist (left : nat) (i j dist mask dist' : Z) :
  8 <= i -> 0 <= j -> i + j + Z.of_nat left <= len data ->
  dist = hamming0xAA (window data (i + j - 8)) ->
  UltraCDC.slide data left i j dist mask = Slid dist' ->
  dist' = hamming0xAA (window data (i + j + Z.of_nat left - 8)).
Proof.
  revert j dist. induction left as [|left IH]; intros j dist Hi Hj Hlen Hd H;
    cbn [UltraCDC.slide] in H.
  - inversion H. subst. f_equal. f_equal. lia.
  - destruct (Z.land (uint64 dist) mask =? 0); [discriminate|].
    destruct (index data (i + j - 8)) as [o|] eqn:Eo; [|discriminate].
    destruct (index data (i + j)) as [b|] eqn:Eb; [|discriminate].
    rewrite index_inside in Eo, Eb by lia.
    assert (Hd' : dist + (UltraCDC.hammingDistanceTo0xAA b - UltraCDC.hammingDistanceTo0xAA o)
                  = hamming0xAA (window data (i + (j + 1) - 8))).
    { subst dist. unfold window.
      replace (Z.to_nat (i + (j + 1) - 8)) with (S (Z.to_nat (i + j - 8))) by lia.
      symmetry. apply hamming_slide; [exact Eo|].
      rewrite <- Eb. f_equal. lia. }
    rewrite (IH (j + 1) _ Hi ltac:(lia) ltac:(lia) Hd' H). f_equal. f_equal. lia.
Qed.

(** The outer loop: where its tests stand and which mask they use. *)
Lemma scan_probes_mask (fuel : nat) (i dist lec mask : Z) (out : list byte) (p : probe) :
  (i < normalSize -> mask = UltraCDC.maskS) ->
  In p (UltraCDC.scan_probes data n normalSize fuel i dist lec mask out) ->
  i <= at_i p <= n - 8 /\ 0 <= at_j p < 8 /\ used_mask p = mask_at normalSize (at_i p).
Proof.
  revert i dist lec mask out.
  induction fuel as [|fuel IH]; intros i dist lec mask out Hm H; cbn [UltraCDC.scan_probes] in H.
  - contradiction.
  - destruct (i <=? n - 8) eqn:C; [|contradiction].
    apply Z.leb_le in C.
    assert (Hm' : (if i >=? normalSize then UltraCDC.maskL else mask) = mask_at normalSize i).
    { unfold mask_at. destruct (i >=? normalSize) eqn:G; destruct (i <? normalSize) eqn:L;
        try reflexivity; lia. }
    rewrite Hm' in H.
    assert (Hnext : i + 8 < normalSize -> mask_at normalSize i = UltraCDC.maskS).
    { intros L. unfold mask_at. destruct (i <? normalSize) eqn:L'; [reflexivity|lia]. }
    destruct (reslice data i (i + 8)); [|contradiction].
    destruct (bytes_Equal l out).
    + destruct (lec + 1 >=? UltraCDC.lowEntropyStringThreshold); [contradiction|].
      apply IH in H; [|exact Hnext]. lia.
    + apply in_app_or in H. destruct H as [H|H].
      * apply slide_probes_where in H. destruct H as (Hi & Hk & Hj).
        rewrite Hi, Hk. cbn in Hj. repeat split; lia.
      * destruct (UltraCDC.slide data 8 i 0 dist (mask_at normalSize i)); try contradiction.
        apply IH in H; [|exact Hnext]. lia.
Qed.

(** The outer loop keeps [dist] the distance of [outBufWin], the window
    that ends at [i], also across a run of equal windows. *)
Lemma scan_probes_dist (fuel : nat) (i dist lec mask : Z) (out : list byte) (p : probe) :
  8 <= i ->
  (i <= n - 8 -> out = window data (i - 8)) ->
  dist = hamming0xAA out ->
  In p (UltraCDC.scan_probes data n normalSize fuel i dist lec mask out) ->
  seen_dist p = hamming0xAA (window data (at_i p + at_j p - 8)).
Proof.
  revert i dist lec mask out.
  induction fuel as [|fuel IH]; intros i dist lec mask out Hi Hout Hd H;
    cbn [UltraCDC.scan_probes] in H.
  - contradiction.
  - destruct (i <=? n - 8) eqn:C; [|contradiction].
    apply Z.leb_le in C. specialize (Hout C).
    rewrite reslice_window in H by lia.
    destruct (bytes_Equal (window data i) out) eqn:E.
    + destruct (lec + 1 >=? UltraCDC.lowEntropyStringThreshold); [contradiction|].
      apply bytes_Equal_true in E.
      apply IH in H; try lia; try assumption.
      intros _. rewrite <- E. f_equal. lia.
    + apply in_app_or in H. destruct H as [H|H].
      * assert (Hd0 : dist = hamming0xAA (window data (i + 0 - 8))).
        { replace (i + 0 - 8) with (i - 8) by lia. now rewrite <- Hout. }
        exact (slide_probes_dist 8 i 0 dist _ p Hi ltac:(lia) ltac:(cbn; lia) Hd0 H).
      * assert (Hd0 : dist = hamming0xAA (window data (i + 0 - 8))).
        { replace (i + 0 - 8) with (i - 8) by lia. now rewrite <- Hout. }
        destruct (UltraCDC.slide data 8 i 0 dist _) as [c| |dist'] eqn:S; try contradiction.
        apply (slide_end_dist 8 i 0 dist _ dist' Hi ltac:(lia) ltac:(cbn; lia) Hd0) in S.
        refine (IH (i + 8) dist' 0 _ (window data i) ltac:(lia) _ _ H).
        -- intros _. f_equal. lia.
        -- rewrite S. f_equal. f_equal. cbn. lia.
Qed.

(** A passing test in the outer loop is where the call returns. *)
Lemma scan_probes_hit (fuel : nat) (i dist lec mask : Z) (out : list byte) (p : probe) :
  In p (UltraCDC.scan_probes data n normalSize fuel i dist lec mask out) ->
  hits p = true ->
  UltraCDC.scan data n normalSize fuel i dist lec mask out = Return (at_i p + at_j p).
Proof.
  revert i dist lec mask out.
  induction fuel as [|fuel IH]; intros i dist lec mask out H Hh;
    cbn [UltraCDC.scan_probes UltraCDC.scan] in *.
  - contradiction.
  - destruct (i <=? n - 8); [|contradiction].
    destruct (reslice data i (i + 8)); [|contradiction].
    destruct (bytes_Equal l out).
    + destruct (lec + 1 >=? UltraCDC.lowEntropyStringThreshold); [contradiction|].
      now apply IH.
    + apply in_app_or in H. destruct H as [H|H].
      * apply slide_probes_hit in H; [|exact Hh]. now rewrite H.
      * destruct (UltraCDC.slide data 8 i 0 dist _) as [c| |dist']; try contradiction.
        now apply IH.
Qed.

End ProbeFacts.

(** * The mask tests of the word-scanning kernel *)

Section WordProbeFacts.

Variable src : list Z.
Variables n NormalSize : Z.

Lemma words_slide_probes_where (left : nat) (i j dist mask inw outw : Z) (p : probe) :
  In p (UltraCDCWords.slide_probes left i j dist mask inw outw) -> at_i p = i.
Proof.
  revert j dist. induction left as [|left IH]; intros j dist H;
    cbn [UltraCDCWords.slide_probes] in H.
  - contradiction.
  - destruct H as [H|H].
    + now subst p.
    + destruct (Z.land (uint64 dist) mask =? 0); [contradiction|].
      now apply IH in H.
Qed.

(** A mask test that passes ends the call with the cutpoint [i + 8],
    whatever [j] is. *)
Lemma words_slide_probes_hit (left : nat) (i j dist mask inw outw : Z) (p : probe) :
  In p (UltraCDCWords.slide_probes left i j dist mask inw outw) -> hits p = true ->
  UltraCDCWords.slide left i j dist mask inw outw = Cut (at_i p + 8).
Proof.
  revert j dist. induction left as [|left IH]; intros j dist H Hh;
    cbn [UltraCDCWords.slide_probes UltraCDCWords.slide] in *.
  - contradiction.
  - destruct H as [H|H].
    + subst p. unfold hits in Hh. cbn in Hh. now rewrite Hh.
    + destruct (Z.land (uint64 dist) mask =? 0); [contradiction|].
      now apply IH.
Qed.

Lemma words_scan_probes_hit (fuel : nat) (i k dist cnt mask outw : Z) (p : probe) :
  In p (UltraCDCWords.scan_probes src n NormalSize fuel i k dist cnt mask outw) ->
  hits p = true ->
  UltraCDCWords.scan src n NormalSize fuel i k dist cnt mask outw = Return (at_i p + 8).
Proof.
  revert i k dist cnt mask outw.
  induction fuel as [|fuel IH]; intros i k dist cnt mask outw H Hh;
    cbn [UltraCDCWords.scan_probes UltraCDCWords.scan] in *.
  - contradiction.
  - destruct (i <? n); [|contradiction].
    destruct (k >=? Z.of_nat (length src)); [contradiction|].
    destruct (UltraCDCWords.word_at src k) as [inw|]; [|contradiction].
    destruct (Z.lxor outw inw =? 0).
    + destruct ((cnt + 1) mod 2 ^ 32 =? UltraCDCWords.LEST); [contradiction|].
      now apply IH.
    + apply in_app_or in H. destruct H as [H|H].
      * apply words_slide_probes_hit in H; [|exact Hh]. now rewrite H.
      * destruct (UltraCDCWords.slide 8 i 0 dist _ inw outw) as [c| |dist'];
          try contradiction.
        now apply IH.
Qed.

(** The bound on the iterations that the word-scanning [Algorithm]
    passes is enough. *)
Lemma words_scan_finishes (fuel : nat) (i k dist cnt mask outw : Z) :
  (1 <= fuel)%nat -> n - i <= 8 * (Z.of_nat fuel - 1) ->
  UltraCDCWords.scan src n NormalSize fuel i k dist cnt mask outw <> Unfinished.
Proof.
  revert i k dist cnt mask outw.
  induction fuel as [|fuel IH]; intros i k dist cnt mask outw H1 H2;
    cbn [UltraCDCWords.scan].
  - lia.
  - destruct (i <? n) eqn:C; [|discriminate].
    apply Z.ltb_lt in C.
    destruct (k >=? Z.of_nat (length src)); [discriminate|].
    destruct (UltraCDCWords.word_at src k) as [inw|]; [|discriminate].
    destruct (Z.lxor outw inw =? 0).
    + destruct ((cnt + 1) mod 2 ^ 32 =? UltraCDCWords.LEST); [discriminate|].
      apply IH; lia.
    + destruct (UltraCDCWords.slide 8 i 0 dist _ inw outw) as [c| |dist'];
        [discriminate|discriminate|apply IH; lia].
Qed.

End WordProbeFacts.

Lemma words_Algorithm_finishes (o : ChunkerOpts) (d : slice) (n : Z) :
  MinSize o < MaxSize o -> UltraCDCWords.Algorithm o d n <> Unfinished.
Proof.
  intros Hord. unfold UltraCDCWords.Algorithm.
  destruct (n >? len d); [discriminate|].
  unfold UltraCDCWords.clamp.
  destruct (n <=? MinSize o) eqn:A; [discriminate|].
  apply Z.leb_gt in A.
  destruct (n >=? MaxSize o) eqn:B;
    [|destruct (n <=? NormalSize o)];
    (destruct (UltraCDCWords.word_at _ _); [|discriminate]);
    apply words_scan_finishes; unfold UltraCDCWords.fuel_for; lia.
Qed.

Lemma words_probes_hit (o : ChunkerOpts) (d : slice) (n : Z) (p : probe) :
  In p (UltraCDCWords.probes o d n) -> hits p = true ->
  UltraCDCWords.Algorithm o d n = Return (at_i p + 8).
Proof.
  unfold UltraCDCWords.probes, UltraCDCWords.Algorithm. intros H Hh.
  destruct (n >? len d); [contradiction|].
  destruct (UltraCDCWords.clamp o n) as [[m ns]|]; [|contradiction].
  destruct (UltraCDCWords.word_at _ _); [|contradiction].
  now apply words_scan_probes_hit.
Qed.

Lemma probes_hit (o : ChunkerOpts) (d : slice) (n : Z) (p : probe) :
  In p (UltraCDC.probes o d n) -> hits p = true ->
  UltraCDC.Algorithm o d n = Return (at_i p + at_j p) /\ 0 <= at_j p <= 7.
Proof.
  unfold UltraCDC.probes, UltraCDC.Algorithm. intros H Hh.
  destruct (n >? len d); [contradiction|].
  destruct (UltraCDC.clamp o n) as [[m ns]|]; [|contradiction].
  destruct (reslice d (MinSize o) (MinSize o + 8)); [|contradiction].
  split; [now apply scan_probes_hit|].
  apply scan_probes_mask in H; [lia|reflexivity].
Qed.

(** * The claims about the kernel *)

(** C1: the contract promises, for [n > minSize], a returned cutpoint in
    [minSize, min(n, maxSize)].  With the validated options 64/65/66, a
    fresh 70-byte slice and [n = 70] (clamped to 66), the call panics on
    the initial window [data[64:72]], so no cutpoint is returned. *)
Theorem Algorithm_panics_where_a_cut_is_promised :
  UltraCDC.Validate narrow = None /\
  0 <= 70 <= len (make (zeros 70)) /\
  MinSize narrow < 70 /\
  UltraCDC.Algorithm narrow (make (zeros 70)) 70 = Panic.
Proof. vm_compute. repeat split; discriminate. Qed.

(** C2: the kernel is documented as safe for every [n <= len(data)].
    With the validated options 64/128/256, a fresh 65-byte slice and
    [n = 65 = len(data)], the call panics. *)
Theorem Algorithm_panics_on_a_short_tail :
  UltraCDC.Validate tiny = None /\
  65 <= len (make (zeros 65)) /\
  UltraCDC.Algorithm tiny (make (zeros 65)) 65 = Panic.
Proof. vm_compute. repeat split; discriminate. Qed.

(** C3: two slices that agree on their first 65 bytes, both at least 65
    long, [n = 65]: the call on the 65-byte slice panics, the call on the
    72-byte slice returns 65.  What happens depends on the bytes that
    exist past position [n]. *)
Theorem Algorithm_outcome_depends_on_length_past_n :
  UltraCDC.Validate tiny = None /\
  65 <= len (make (zeros 65)) /\ 65 <= len (make (zeros 72)) /\
  firstn 65 (elems (make (zeros 65))) = firstn 65 (elems (make (zeros 72))) /\
  UltraCDC.Algorithm tiny (make (zeros 65)) 65 = Panic /\
  UltraCDC.Algorithm tiny (make (zeros 72)) 65 = Return 65.
Proof. vm_compute. repeat split; discriminate. Qed.

(** C4, as the code has it: on [maxSize] = 65536 zero bytes under the
    default options the kernel cuts through the low-entropy path, after
    64 windows equal to the first one: it returns
    2568 = minSize + 8 + 8 * 64, not [maxSize]. *)
Theorem Algorithm_zeros_cut_by_low_entropy :
  MaxSize UltraCDC.DefaultOptions = 65536 /\
  UltraCDC.Algorithm UltraCDC.DefaultOptions (make (zeros 65536)) 65536 = Return 2568 /\
  2568 = MinSize UltraCDC.DefaultOptions + 8 + 8 * UltraCDC.lowEntropyStringThreshold.
Proof. vm_compute. repeat split. Qed.

(** C4 as stated fails: the call does not return [maxSize]. *)
Lemma Algorithm_zeros_not_one_chunk :
  ~ UltraCDC.Algorithm UltraCDC.DefaultOptions (make (zeros 65536))
      (MaxSize UltraCDC.DefaultOptions)
    = Return (MaxSize UltraCDC.DefaultOptions).
Proof. vm_compute. discriminate. Qed.

(** The word-scanning revision cuts the zeros at the same place. *)
Lemma Algorithm_words_zeros :
  UltraCDCWords.Algorithm UltraCDCWords.DefaultOptions (make (zeros 65536)) 65536
  = Return 2568.
Proof. vm_compute. reflexivity. Qed.

(** C6: every mask test of a call with validated options and
    [n <= len(data)], at outer position [i], uses the strict mask 0x2F
    when [i] is below the effective normal size and the relaxed mask 0x2C
    when [i] is at or above it; the effective normal size is [n] when
    [minSize < n <= normalSize] and [normalSize] otherwise.  Nothing is
    asked of the alignment of [normalSize]. *)
Theorem masks_follow_effective_normal_size
  (o : ChunkerOpts) (d : slice) (n : Z) (p : probe) :
  UltraCDC.Validate o = None -> n <= len d ->
  In p (UltraCDC.probes o d n) ->
  used_mask p = (if at_i p <? UltraCDC.effectiveNormalSize o n then 0x2F else 0x2C) /\
  UltraCDC.effectiveNormalSize o n =
    (if (MinSize o <? n) && (n <=? NormalSize o) then n else NormalSize o).
Proof.
  intros Hv Hn H. split; [|reflexivity].
  apply Validate_nil_valid in Hv.
  unfold UltraCDC.probes in H.
  destruct (n >? len d); [contradiction|].
  destruct (Z_le_gt_dec n (MinSize o)) as [Hs|Hl].
  { rewrite clamp_short in H by exact Hs. contradiction. }
  rewrite clamp_long in H by (assumption || lia).
  destruct (reslice d (MinSize o) (MinSize o + 8)); [|contradiction].
  apply scan_probes_mask in H; [|reflexivity].
  destruct H as (_ & _ & H). exact H.
Qed.

(** C6 at work: with the normal size 100, off the stride, the scan of
    [striped] uses the relaxed mask from [i = 104] on. *)
Lemma masks_follow_effective_normal_size_at_104 :
  used_mask (mkProbe 104 0 32 0x2C)
  = (if at_i (mkProbe 104 0 32 0x2C) <? UltraCDC.effectiveNormalSize offbeat 256
     then 0x2F else 0x2C) /\
  UltraCDC.effectiveNormalSize offbeat 256
  = (if (MinSize offbeat <? 256) && (256 <=? NormalSize offbeat)
     then 256 else NormalSize offbeat).
Proof.
  apply (masks_follow_effective_normal_size offbeat striped 256 (mkProbe 104 0 32 0x2C)).
  - reflexivity.
  - vm_compute. discriminate.
  - apply (nth_error_In _ 32). vm_compute. reflexivity.
Defined.

(** X8: the word-scanning revision switches only when [i == NormalSize]: with
    the same options and input it still uses the strict mask at
    [i = 104], and up to the last word. *)
Lemma words_mask_switch_needs_alignment :
  UltraCDCWords.Validate offbeat = None /\
  nth_error (UltraCDCWords.probes offbeat striped 256) 32 = Some (mkProbe 104 0 32 0x2F) /\
  Forall (fun p => used_mask p = 0x2F) (UltraCDCWords.probes offbeat striped 256).
Proof.
  split; [reflexivity|]. split; [vm_compute; reflexivity|].
  apply Forall_forall. intros p H.
  assert (E : forallb (fun p => used_mask p =? 0x2F)
                (UltraCDCWords.probes offbeat striped 256) = true)
    by (vm_compute; reflexivity).
  rewrite forallb_forall in E. apply E in H. now apply Z.eqb_eq in H.
Qed.

(** C10: at every mask test of a call with validated options and
    [n <= len(data)], at position [(i, j)], the variable [dist] that the
    table lookups maintain equals the Hamming distance, computed from
    scratch, between the window [data[i+j-8 : i+j]] and the pattern 0xAA
    repeated (the sum over its bytes [b] of [OnesCount8 (b xor 0xAA)]); the
    window lies within the data.  Runs of equal windows are covered: they
    are iterations of the outer loop like the others. *)
Theorem dist_is_distance_of_current_window
  (o : ChunkerOpts) (d : slice) (n : Z) (p : probe) :
  UltraCDC.Validate o = None -> n <= len d ->
  In p (UltraCDC.probes o d n) ->
  0 <= at_j p < 8 /\
  0 <= at_i p + at_j p - 8 /\ at_i p + at_j p <= len d /\
  seen_dist p = hamming0xAA (window d (at_i p + at_j p - 8)).
Proof.
  intros Hv Hn H. apply Validate_nil_valid in Hv.
  pose proof Hv as (Hmin & _ & _ & Hord). unfold in_range in Hmin.
  unfold UltraCDC.probes in H.
  destruct (n >? len d) eqn:C; [contradiction|].
  destruct (Z_le_gt_dec n (MinSize o)) as [Hs|Hl].
  { rewrite clamp_short in H by exact Hs. contradiction. }
  rewrite clamp_long in H by (assumption || lia).
  set (m := Z.min n (MaxSize o)) in *.
  assert (Hm : m <= len d) by lia.
  destruct (reslice d (MinSize o) (MinSize o + 8)) as [out|] eqn:R; [|contradiction].
  pose proof (scan_probes_mask d m _ _ _ _ _ _ _ p (fun _ => eq_refl) H) as (Hi & Hj & _).
  repeat split; try lia.
  refine (scan_probes_dist d m _ Hm _ (MinSize o + 8) _ _ _ out p ltac:(lia) _ eq_refl H).
  intros Hlong. rewrite reslice_window in R by lia.
  inversion R. f_equal. lia.
Qed.

(** C10 at work: the last test before the scan of [striped] crosses into
    the ninth window. *)
Lemma dist_is_distance_of_current_window_at_135 :
  0 <= at_j (mkProbe 128 7 32 0x2C) < 8 /\
  0 <= at_i (mkProbe 128 7 32 0x2C) + at_j (mkProbe 128 7 32 0x2C) - 8 /\
  at_i (mkProbe 128 7 32 0x2C) + at_j (mkProbe 128 7 32 0x2C) <= len striped /\
  seen_dist (mkProbe 128 7 32 0x2C)
  = hamming0xAA (window striped
                   (at_i (mkProbe 128 7 32 0x2C) + at_j (mkProbe 128 7 32 0x2C) - 8)).
Proof.
  apply (dist_is_distance_of_current_window tiny striped 256 (mkProbe 128 7 32 0x2C)).
  - reflexivity.
  - vm_compute. discriminate.
  - apply (nth_error_In _ 63). vm_compute. reflexivity.
Defined.

(** * Word-scanning against byte-indexed *)

(** C9, as the code has it: the two revisions are not extensionally
    equal, since on validated options and [0 <= n <= len(data)] their
    cutpoints can differ; and whenever both return through a mask test
    that passes at the same outer position [i], the word-scanning revision
    returns [i + 8] and the byte-indexed one [i + j] with [0 <= j <= 7], so
    the first exceeds the second by [8 - j]: at least 1 and at most 8
    bytes. *)
Theorem word_cut_exceeds_byte_cut_by_1_to_8 :
  (exists (o : ChunkerOpts) (d : slice) (n a b : Z),
      UltraCDC.Validate o = None /\ UltraCDCWords.Validate o = None /\
      0 <= n <= len d /\
      UltraCDCWords.Algorithm o d n = Return a /\
      UltraCDC.Algorithm o d n = Return b /\ a <> b) /\
  (forall (o : ChunkerOpts) (d : slice) (n : Z) (pw pb : probe),
      In pw (UltraCDCWords.probes o d n) -> hits pw = true ->
      In pb (UltraCDC.probes o d n) -> hits pb = true ->
      at_i pw = at_i pb ->
      exists a b : Z,
        UltraCDCWords.Algorithm o d n = Return a /\
        UltraCDC.Algorithm o d n = Return b /\
        a = at_i pb + 8 /\ b = at_i pb + at_j pb /\
        a - b = 8 - at_j pb /\ 1 <= a - b <= 8).
Proof.
  split.
  - exists tiny, early_hit, 80, 80, 72. vm_compute. repeat split; discriminate.
  - intros o d n pw pb Hw Hhw Hb Hhb Hi.
    pose proof (words_probes_hit o d n pw Hw Hhw) as Ew.
    pose proof (probes_hit o d n pb Hb Hhb) as [Eb Hj].
    exists (at_i pb + 8), (at_i pb + at_j pb).
    rewrite Hi in Ew. repeat split; try assumption; lia.
Qed.

(** C9 at work: on [early_hit] both revisions cut through the test at
    [(72, 0)]; the cuts are 80 and 72. *)
Lemma word_cut_exceeds_byte_cut_on_early_hit :
  exists a b : Z,
    UltraCDCWords.Algorithm tiny early_hit 80 = Return a /\
    UltraCDC.Algorithm tiny early_hit 80 = Return b /\
    a = at_i (mkProbe 72 0 0 0x2F) + 8 /\
    b = at_i (mkProbe 72 0 0 0x2F) + at_j (mkProbe 72 0 0 0x2F) /\
    a - b = 8 - at_j (mkProbe 72 0 0 0x2F) /\ 1 <= a - b <= 8.
Proof.
  apply (proj2 word_cut_exceeds_byte_cut_by_1_to_8 tiny early_hit 80
           (mkProbe 72 0 0 0x2F) (mkProbe 72 0 0 0x2F)).
  - vm_compute. left. reflexivity.
  - reflexivity.
  - vm_compute. left. reflexivity.
  - reflexivity.
  - reflexivity.
Defined.

(** C9 as stated fails: with both cuts made by the mask test of the same
    word, the difference is not bounded by 7.  On [early_hit] it is 8. *)
Lemma word_cut_can_exceed_byte_cut_by_8 :
  ~ (forall (o : ChunkerOpts) (d : slice) (n : Z) (pw pb : probe) (a b : Z),
       UltraCDC.Validate o = None -> UltraCDCWords.Validate o = None ->
       0 <= n <= len d ->
       In pw (UltraCDCWords.probes o d n) -> hits pw = true ->
       In pb (UltraCDC.probes o d n) -> hits pb = true ->
       at_i pw = at_i pb ->
       UltraCDCWords.Algorithm o d n = Return a ->
       UltraCDC.Algorithm o d n = Return b ->
       a - b <= 7).
Proof.
  intros H.
  assert (E : 80 - 72 <= 7).
  { apply (H tiny early_hit 80 (mkProbe 72 0 0 0x2F) (mkProbe 72 0 0 0x2F) 80 72);
      try reflexivity.
    - vm_compute. split; discriminate.
    - vm_compute. left. reflexivity.
    - vm_compute. left. reflexivity. }
  lia.
Qed.

(** * Further facts about the byte-indexed kernel *)

(** X1: every cutpoint a call returns obeys the contract: it is [n] when
    [n <= minSize], and lies in [minSize, min(n, maxSize)] otherwise. *)
Theorem Algorithm_returned_cut_in_bounds (o : ChunkerOpts) (d : slice) (n c : Z) :
  UltraCDC.Validate o = None -> n <= len d ->
  UltraCDC.Algorithm o d n = Return c ->
  (n <= MinSize o -> c = n) /\
  (MinSize o < n -> MinSize o <= c <= Z.min n (MaxSize o)).
Proof.
  intros Hv Hn E. apply Validate_nil_valid in Hv.
  destruct (Algorithm_outcome o d n Hv Hn)
    as [(Hs & R)|[(Hl & _ & R)|(Hl & _ & c' & R & B)]];
    rewrite R in E; inversion E; subst; split; intros; lia.
Qed.

Lemma Algorithm_returned_cut_in_bounds_on_striped :
  (256 <= MinSize tiny -> 256 = 256) /\
  (MinSize tiny < 256 -> MinSize tiny <= 256 <= Z.min 256 (MaxSize tiny)).
Proof.
  apply (Algorithm_returned_cut_in_bounds tiny striped 256 256).
  - reflexivity.
  - vm_compute. discriminate.
  - vm_compute. reflexivity.
Defined.

(** X2: a call with validated options and [n <= len(data)] always ends, and
    it panics exactly when [n > minSize] and the capacity of [data] is
    below [minSize + 8]; otherwise it returns. *)
Theorem Algorithm_panics_exactly_on_short_capacity (o : ChunkerOpts) (d : slice) (n : Z) :
  UltraCDC.Validate o = None -> n <= len d ->
  UltraCDC.Algorithm o d n <> Unfinished /\
  (UltraCDC.Algorithm o d n = Panic <-> MinSize o < n /\ cap d < MinSize o + 8).
Proof.
  intros Hv Hn. apply Validate_nil_valid in Hv.
  destruct (Algorithm_outcome o d n Hv Hn)
    as [(Hs & R)|[(Hl & Hc & R)|(Hl & Hc & c' & R & B)]]; rewrite R;
    (split; [discriminate|]); split; intros H; try discriminate; try lia; try reflexivity.
Qed.

Lemma Algorithm_panics_exactly_on_short_capacity_tiny :
  UltraCDC.Algorithm tiny (make (zeros 65)) 65 <> Unfinished /\
  (UltraCDC.Algorithm tiny (make (zeros 65)) 65 = Panic <->
   MinSize tiny < 65 /\ cap (make (zeros 65)) < MinSize tiny + 8).
Proof.
  apply (Algorithm_panics_exactly_on_short_capacity tiny (make (zeros 65)) 65).
  - reflexivity.
  - vm_compute. discriminate.
Defined.

(** X3: with room for the initial window in both slices, the outcome is a
    function of the first [n] bytes. *)
Theorem Algorithm_depends_on_prefix_only (o : ChunkerOpts) (d1 d2 : slice) (n : Z) :
  UltraCDC.Validate o = None -> n <= len d1 -> n <= len d2 ->
  firstn (Z.to_nat n) (elems d1) = firstn (Z.to_nat n) (elems d2) ->
  MinSize o + 8 <= cap d1 -> MinSize o + 8 <= cap d2 ->
  UltraCDC.Algorithm o d1 n = UltraCDC.Algorithm o d2 n.
Proof.
  intros Hv. apply Validate_nil_valid in Hv. now apply Algorithm_same_prefix.
Qed.

Lemma Algorithm_depends_on_prefix_only_on_early_hit :
  UltraCDC.Algorithm tiny early_hit 80
  = UltraCDC.Algorithm tiny (mkSlice (elems early_hit ++ fill xff 8) (zeros 8)) 80.
Proof.
  apply (Algorithm_depends_on_prefix_only tiny early_hit
           (mkSlice (elems early_hit ++ fill xff 8) (zeros 8)) 80).
  - reflexivity.
  - vm_compute. discriminate.
  - vm_compute. discriminate.
  - vm_compute. reflexivity.
  - vm_compute. discriminate.
  - vm_compute. discriminate.
Defined.

(** X4: the byte-indexed revision has no error value: for [n > 0] it never
    returns 0. *)
Theorem Algorithm_never_returns_zero (o : ChunkerOpts) (d : slice) (n : Z) :
  UltraCDC.Validate o = None -> 0 < n <= len d ->
  UltraCDC.Algorithm o d n <> Return 0.
Proof.
  intros Hv [H0 Hn] E. apply Validate_nil_valid in Hv.
  pose proof Hv as (Hmin & _). unfold in_range in Hmin.
  destruct (Algorithm_outcome o d n Hv Hn)
    as [(Hs & R)|[(Hl & _ & R)|(Hl & _ & c' & R & B)]];
    rewrite R in E; inversion E; lia.
Qed.

Lemma Algorithm_never_returns_zero_on_early_hit :
  UltraCDC.Algorithm tiny early_hit 80 <> Return 0.
Proof.
  apply (Algorithm_never_returns_zero tiny early_hit 80).
  - reflexivity.
  - vm_compute. split; [reflexivity|discriminate].
Defined.

(** X5: the word-scanning revision does take its error branch: on 81 zero
    bytes with [n = 81] it returns 0; and it can return a cutpoint above
    [n]. *)
Theorem Algorithm_words_error_value_and_overshoot :
  UltraCDCWords.Validate tiny = None /\
  UltraCDCWords.Algorithm tiny (make (zeros 81)) 81 = Return 0 /\
  UltraCDCWords.Algorithm tiny early_hit 75 = Return 80.
Proof. vm_compute. repeat split. Qed.

(** * Bytes and little-endian words *)

Lemma byte_val_range (b : byte) : 0 <= byte_val b < 256.
Proof.
  unfold byte_val. pose proof (Byte.to_N_bounded b). lia.
Qed.

Lemma byte_val_inj (a b : byte) : byte_val a = byte_val b -> a = b.
Proof.
  unfold byte_val. intros H. apply N2Z.inj in H.
  pose proof (Byte.of_to_N a) as Ha. pose proof (Byte.of_to_N b) as Hb.
  rewrite H in Ha. rewrite Ha in Hb. now inversion Hb.
Qed.

Lemma le_word_nonneg (bs : list byte) : 0 <= UltraCDCWords.le_word bs.
Proof.
  induction bs as [|b bs IH]; cbn [UltraCDCWords.le_word]; [lia|].
  apply Z.lor_nonneg. pose proof (byte_val_range b). split; [lia|].
  apply Z.shiftl_nonneg. exact IH.
Qed.

Lemma small_bit_high (a i : Z) : 0 <= a < 256 -> 8 <= i -> Z.testbit a i = false.
Proof.
  intros Ha Hi. destruct (Z.eq_dec a 0) as [->|Hz]; [apply Z.testbit_0_l|].
  apply Z.bits_above_log2; [lia|].
  assert (Z.log2 a < 8) by (apply Z.log2_lt_pow2; lia). lia.
Qed.

Lemma lor_shift8 (a w : Z) :
  0 <= a < 256 -> Z.lor a (Z.shiftl w 8) = a + 256 * w.
Proof.
  intros Ha.
  assert (D : Z.land a (Z.shiftl w 8) = 0).
  { apply Z.bits_inj'. intros i Hi. rewrite Z.land_spec, Z.bits_0.
    destruct (Z_lt_ge_dec i 8) as [L|G].
    - rewrite Z.shiftl_spec_low by lia. apply andb_false_r.
    - rewrite small_bit_high by lia. reflexivity. }
  rewrite <- Z.lxor_lor by exact D.
  rewrite <- Z.add_nocarry_lxor by exact D.
  rewrite Z.shiftl_mul_pow2 by lia. change (2 ^ 8) with 256. lia.
Qed.

Lemma le_word_cons (b : byte) (bs : list byte) :
  UltraCDCWords.le_word (b :: bs) = byte_val b + 256 * UltraCDCWords.le_word bs.
Proof.
  cbn [UltraCDCWords.le_word]. apply lor_shift8. apply byte_val_range.
Qed.

Lemma low_byte_le_word (b : byte) (bs : list byte) :
  low_byte (UltraCDCWords.le_word (b :: bs)) = byte_val b.
Proof.
  rewrite le_word_cons. unfold low_byte. change (2 ^ 8) with 256.
  pose proof (byte_val_range b).
  rewrite (Z.mul_comm 256), Z_mod_plus_full. now apply Z.mod_small.
Qed.

Lemma shiftr8_le_word (b : byte) (bs : list byte) :
  Z.shiftr (UltraCDCWords.le_word (b :: bs)) 8 = UltraCDCWords.le_word bs.
Proof.
  rewrite le_word_cons, Z.shiftr_div_pow2 by lia. change (2 ^ 8) with 256.
  pose proof (byte_val_range b).
  rewrite (Z.mul_comm 256), Z.div_add by lia.
  rewrite Z.div_small by lia. lia.
Qed.

(** Byte [j] of a little-endian word, as the kernels take it with
    [byte(w >> (j << 3))], is the [j]-th byte the word was read from. *)
Lemma le_word_byte (bs : list byte) (j : nat) (b : byte) :
  nth_error bs j = Some b ->
  low_byte (Z.shiftr (UltraCDCWords.le_word bs) (Z.shiftl (Z.of_nat j) 3)) = byte_val b.
Proof.
  rewrite Z.shiftl_mul_pow2 by lia. change (2 ^ 3) with 8.
  revert bs. induction j as [|j IH]; intros [|x bs] H; cbn [nth_error] in H;
    try discriminate.
  - inversion H; subst. cbn [Z.of_nat Z.mul]. rewrite Z.shiftr_0_r.
    apply low_byte_le_word.
  - replace (Z.of_nat (S j) * 8) with (8 + Z.of_nat j * 8) by lia.
    rewrite <- Z.shiftr_shiftr by lia. rewrite shiftr8_le_word. now apply IH.
Qed.

Lemma le_word_inj (a b : list byte) :
  length a = length b -> UltraCDCWords.le_word a = UltraCDCWords.le_word b -> a = b.
Proof.
  revert b. induction a as [|x a IH]; intros [|y b] L H; cbn [length] in L;
    try discriminate; try reflexivity.
  rewrite !le_word_cons in H.
  pose proof (byte_val_range x). pose proof (byte_val_range y).
  assert (byte_val x = byte_val y /\ UltraCDCWords.le_word a = UltraCDCWords.le_word b)
    as [Hx Hw] by lia.
  apply byte_val_inj in Hx. subst y. f_equal. apply IH; [lia|exact Hw].
Qed.

Lemma bytes_Equal_refl (a : list byte) : bytes_Equal a a = true.
Proof.
  induction a as [|x a IH]; cbn; [reflexivity|].
  rewrite IH, andb_true_r. now apply Byte.byte_dec_lb.
Qed.

(** Comparing two words with xor is comparing the 8 bytes they hold. *)
Lemma words_equal_iff (a b : list byte) :
  length a = length b ->
  (Z.lxor (UltraCDCWords.le_word a) (UltraCDCWords.le_word b) =? 0) = bytes_Equal b a.
Proof.
  intros L. destruct (bytes_Equal b a) eqn:E.
  - apply bytes_Equal_true in E. subst. apply Z.eqb_eq. now apply Z.lxor_eq_0_iff.
  - apply Z.eqb_neq. intros H. apply (proj1 (Z.lxor_eq_0_iff _ _)) in H.
    apply le_word_inj in H; [|exact L]. subst. now rewrite bytes_Equal_refl in E.
Qed.

(** Counting ones: only the counted bits matter, and a count over
    [k + 8] bits splits into the low byte and the rest. *)
Lemma ones_ext (w : nat) (z z' : Z) :
  (forall i, 0 <= i < Z.of_nat w -> Z.testbit z i = Z.testbit z' i) ->
  ones w z = ones w z'.
Proof.
  induction w as [|w IH]; intros H; cbn [ones]; [reflexivity|].
  rewrite H by lia. rewrite IH; [reflexivity|]. intros i Hi. apply H. lia.
Qed.

Lemma ones_S (w : nat) (z : Z) :
  ones (S w) z = Z.b2z (Z.testbit z (Z.of_nat w)) + ones w z.
Proof. reflexivity. Qed.

Lemma ones_split (k : nat) (z : Z) :
  ones (k + 8) z = ones 8 z + ones k (Z.shiftr z 8).
Proof.
  induction k as [|k IH].
  - change (ones 0 (Z.shiftr z 8)) with 0. change (0 + 8)%nat with 8%nat. lia.
  - change (S k + 8)%nat with (S (k + 8)). rewrite (ones_S (k + 8)), (ones_S k), IH, Z.shiftr_spec by lia.
    replace (Z.of_nat (k + 8)) with (Z.of_nat k + 8) by lia. lia.
Qed.

Lemma hamming_fold (bs : list byte) (acc : Z) :
  fold_left (fun d v => d + OnesCount8 (Z.lxor (byte_val v) 0xAA)) bs acc
  = acc + hamming0xAA bs.
Proof.
  unfold hamming0xAA. revert acc.
  induction bs as [|x bs IH]; intros acc; cbn [fold_left]; [lia|].
  rewrite IH, (IH (0 + _)). lia.
Qed.

Lemma hamming_cons (b : byte) (bs : list byte) :
  hamming0xAA (b :: bs) = OnesCount8 (Z.lxor (byte_val b) 0xAA) + hamming0xAA bs.
Proof.
  unfold hamming0xAA at 1. cbn [fold_left]. rewrite hamming_fold. lia.
Qed.

(** [bits.OnesCount64(w ^ Pattern)] is the byte-wise distance of the 8
    bytes of [w] to 0xAA. *)
Lemma ones_le_word (bs : list byte) :
  ones (length bs * 8)
       (Z.lxor (UltraCDCWords.le_word bs) (UltraCDCWords.le_word (repeat xaa (length bs))))
  = hamming0xAA bs.
Proof.
  induction bs as [|b bs IH]; [reflexivity|].
  cbn [length repeat Nat.mul]. rewrite Nat.add_comm, ones_split.
  rewrite Z.shiftr_lxor, !shiftr8_le_word, IH, hamming_cons. f_equal.
  unfold OnesCount8. apply ones_ext. intros i Hi.
  rewrite !Z.lxor_spec. rewrite !le_word_cons.
  rewrite <- !lor_shift8 by (apply byte_val_range).
  rewrite !Z.lor_spec, !Z.shiftl_spec_low, !orb_false_r by lia.
  reflexivity.
Qed.

Lemma OnesCount64_word (bs : list byte) :
  length bs = 8%nat ->
  OnesCount64 (Z.lxor (UltraCDCWords.le_word bs) UltraCDCWords.Pattern) = hamming0xAA bs.
Proof.
  intros L. rewrite <- ones_le_word. rewrite L. reflexivity.
Qed.

(** * [bytesToUint64] *)

Lemma words_length (count : nat) (bs : list byte) :
  length (UltraCDCWords.words count bs) = count.
Proof.
  revert bs. induction count as [|count IH]; intros bs; cbn [UltraCDCWords.words length];
    [reflexivity|]. now rewrite IH.
Qed.

Lemma words_nth (count : nat) (bs : list byte) (k : nat) :
  (k < count)%nat ->
  nth_error (UltraCDCWords.words count bs) k
  = Some (UltraCDCWords.le_word (firstn 8 (skipn (8 * k) bs))).
Proof.
  revert bs k. induction count as [|count IH]; intros bs k H; [lia|].
  cbn [UltraCDCWords.words]. destruct k as [|k]; cbn [nth_error].
  - reflexivity.
  - rewrite IH by lia. rewrite skipn_skipn.
    now replace (8 * k + 8)%nat with (8 * S k)%nat by lia.
Qed.

Lemma bytesToUint64_count (d : slice) :
  Z.of_nat (length (UltraCDCWords.bytesToUint64 d)) = len d / 8.
Proof.
  unfold UltraCDCWords.bytesToUint64.
  assert (0 <= len d) by (unfold len; lia).
  destruct (len d <? 8) eqn:C.
  - apply Z.ltb_lt in C. rewrite Z.div_small by lia. reflexivity.
  - rewrite words_length. rewrite Z.quot_div_nonneg by lia.
    rewrite Z2Nat.id; [reflexivity|]. apply Z.div_pos; lia.
Qed.

Lemma word_at_window (d : slice) (k : Z) :
  0 <= k < len d / 8 ->
  UltraCDCWords.word_at (UltraCDCWords.bytesToUint64 d) k
  = Some (UltraCDCWords.le_word (window d (8 * k))).
Proof.
  intros H. unfold UltraCDCWords.word_at. rewrite bytesToUint64_count.
  destruct (0 <=? k) eqn:A; [|lia]. destruct (k <? len d / 8) eqn:B; [|lia].
  cbn [andb]. unfold UltraCDCWords.bytesToUint64.
  assert (0 <= len d) by (unfold len; lia).
  destruct (len d <? 8) eqn:C.
  { apply Z.ltb_lt in C. rewrite Z.div_small in H by lia. lia. }
  rewrite Z.quot_div_nonneg by lia.
  rewrite words_nth by lia. unfold window.
  now replace (8 * Z.to_nat k)%nat with (Z.to_nat (8 * k)) by lia.
Qed.

Lemma word_at_outside (src : list Z) (k : Z) :
  Z.of_nat (length src) <= k -> UltraCDCWords.word_at src k = None.
Proof.
  intros H. unfold UltraCDCWords.word_at.
  destruct (k <? Z.of_nat (length src)) eqn:B; [lia|]. now rewrite andb_false_r.
Qed.

Lemma window_length (d : slice) (p : Z) :
  0 <= p -> p + 8 <= len d -> length (window d p) = 8%nat.
Proof.
  intros H0 H1. unfold window, len in *. rewrite length_firstn, length_skipn. lia.
Qed.

Lemma window_nth (d : slice) (p : Z) (j : nat) :
  0 <= p -> (j < 8)%nat ->
  nth_error (window d p) j = nth_error (elems d) (Z.to_nat (p + Z.of_nat j)).
Proof.
  intros H0 Hj. unfold window. rewrite nth_error_firstn.
  assert (L : (j <? 8)%nat = true) by (apply Nat.ltb_lt; lia). rewrite L.
  rewrite nth_error_skipn. f_equal. lia.
Qed.

(** X9: [bytesToUint64] returns [len(b) / 8] words, whatever the length
    is: none below 8 bytes, and the bytes past the last multiple of 8 are
    left out. *)
Theorem bytesToUint64_has_len_div_8_words (b : slice) :
  Z.of_nat (length (UltraCDCWords.bytesToUint64 b)) = len b / 8 /\
  (len b < 8 -> UltraCDCWords.bytesToUint64 b = []).
Proof.
  split; [apply bytesToUint64_count|].
  intros H. unfold UltraCDCWords.bytesToUint64.
  destruct (len b <? 8) eqn:C; [reflexivity|lia].
Qed.

(** X10: the words are the little-endian view of the bytes: for every
    word index [k] below [len(b) / 8] and every [j] in 0..7, the word
    [src[k]] exists and [byte(src[k] >> (j << 3))] is the byte
    [b[8*k + j]]. *)
Theorem bytesToUint64_is_little_endian_view (b : slice) (k j : Z) :
  0 <= k < len b / 8 -> 0 <= j < 8 ->
  exists (w : Z) (x : byte),
    UltraCDCWords.word_at (UltraCDCWords.bytesToUint64 b) k = Some w /\
    index b (8 * k + j) = Some x /\
    low_byte (Z.shiftr w (Z.shiftl j 3)) = byte_val x.
Proof.
  intros Hk Hj.
  assert (Hin : 0 <= 8 * k + j < len b).
  { pose proof (Z.mul_div_le (len b) 8 ltac:(lia)). lia. }
  destruct (index_inside_some b (8 * k + j) Hin) as [x Hx].
  exists (UltraCDCWords.le_word (window b (8 * k))), x.
  split; [now apply word_at_window|]. split; [exact Hx|].
  rewrite index_inside in Hx by exact Hin.
  replace j with (Z.of_nat (Z.to_nat j)) by lia.
  apply le_word_byte. rewrite window_nth by lia. rewrite <- Hx. f_equal. lia.
Qed.

Lemma bytesToUint64_is_little_endian_view_of_early_hit :
  exists (w : Z) (x : byte),
    UltraCDCWords.word_at (UltraCDCWords.bytesToUint64 early_hit) 8 = Some w /\
    index early_hit (8 * 8 + 3) = Some x /\
    low_byte (Z.shiftr w (Z.shiftl 3 3)) = byte_val x.
Proof.
  apply (bytesToUint64_is_little_endian_view early_hit 8 3).
  - vm_compute. split; [discriminate|reflexivity].
  - lia.
Defined.

(** * Which error [Validate] returns *)

(** X11: [Validate] of the byte-indexed revision tests the normal size
    first, then the minimum, then the maximum, and returns the error of the
    first test that fails: [ErrNormalSize] exactly when the normal size is
    outside [64, 2^30]; [ErrMinSize] exactly when the normal size is in
    range and the minimum is out of range or not below it; [ErrMaxSize]
    exactly when both are fine and the maximum is out of range or not
    above the normal size. *)
Theorem Validate_returns_first_failing_check (o : ChunkerOpts) :
  (UltraCDC.Validate o = Some UltraCDC.ErrNormalSize <-> ~ in_range (NormalSize o)) /\
  (UltraCDC.Validate o = Some UltraCDC.ErrMinSize <->
     in_range (NormalSize o) /\ ~ (in_range (MinSize o) /\ MinSize o < NormalSize o)) /\
  (UltraCDC.Validate o = Some UltraCDC.ErrMaxSize <->
     in_range (NormalSize o) /\ in_range (MinSize o) /\ MinSize o < NormalSize o /\
     ~ (in_range (MaxSize o) /\ NormalSize o < MaxSize o)).
Proof.
  unfold UltraCDC.Validate, in_range.
  destruct o as [mn nm mx]; cbn [MinSize NormalSize MaxSize].
  repeat match goal with
         | |- context [if ?c then _ else _] => destruct c eqn:?
         end;
    repeat split; intros; try discriminate; try reflexivity;
    split_bools; lia.
Qed.

(** X12: [Validate] of the word-scanning revision tests divisibility of
    the minimum by 8 before everything else: it returns
    [ErrMinSizeNotMultipleOf8] exactly when [MinSize] is not a multiple of
    8, whatever the other sizes are, and the other three errors, in the
    order normal, minimum, maximum, only for a minimum that is one. *)
Theorem Validate_words_returns_first_failing_check (o : ChunkerOpts) :
  (UltraCDCWords.Validate o = Some UltraCDCWords.ErrMinSizeNotMultipleOf8 <->
     (MinSize o) mod 8 <> 0) /\
  (UltraCDCWords.Validate o = Some UltraCDCWords.ErrNormalSize <->
     (MinSize o) mod 8 = 0 /\ ~ in_range (NormalSize o)) /\
  (UltraCDCWords.Validate o = Some UltraCDCWords.ErrMinSize <->
     (MinSize o) mod 8 = 0 /\ in_range (NormalSize o) /\
     ~ (in_range (MinSize o) /\ MinSize o < NormalSize o)) /\
  (UltraCDCWords.Validate o = Some UltraCDCWords.ErrMaxSize <->
     (MinSize o) mod 8 = 0 /\ in_range (NormalSize o) /\ in_range (MinSize o) /\
     MinSize o < NormalSize o /\ ~ (in_range (MaxSize o) /\ NormalSize o < MaxSize o)).
Proof.
  unfold UltraCDCWords.Validate, in_range.
  destruct o as [mn nm mx]; cbn [MinSize NormalSize MaxSize].
  rewrite <- rem8_zero_iff.
  destruct (Z.rem mn 8 =? 0) eqn:R; cbn [negb].
  - apply Z.eqb_eq in R.
    repeat match goal with
           | |- context [if ?c then _ else _] => destruct c eqn:?
           end;
      repeat split; intros; try discriminate; try reflexivity; try contradiction;
      split_bools; try lia; tauto.
  - apply Z.eqb_neq in R.
    repeat split; intros; try discriminate; try reflexivity; try assumption; tauto.
Qed.

(** * The word-scanning kernel in general *)

Section WordScanFacts.

Variable src : list Z.
Variables n NormalSize : Z.

Lemma words_slide_cut (left : nat) (i j dist mask inw outw : Z) :
  match UltraCDCWords.slide left i j dist mask inw outw with
  | Cut c => c = i + 8
  | OutOfRange => False
  | Slid _ => True
  end.
Proof.
  revert j dist. induction left as [|left IH]; intros j dist; cbn [UltraCDCWords.slide].
  - exact I.
  - destruct (Z.land (uint64 dist) mask =? 0); [reflexivity|]. apply IH.
Qed.

(** What the loop can return, from a state with [i = 8 * k]. *)
Lemma words_scan_result (fuel : nat) (i k dist cnt mask outw : Z) :
  0 <= k -> i = 8 * k ->
  match UltraCDCWords.scan src n NormalSize fuel i k dist cnt mask outw with
  | Return c =>
      (c = 0 /\ 8 * Z.of_nat (length src) < n) \/ c = n \/
      (i + 8 <= c <= n + 7 /\ c mod 8 = 0)
  | Panic => False
  | Unfinished => True
  end.
Proof.
  revert i k dist cnt mask outw.
  induction fuel as [|fuel IH]; intros i k dist cnt mask outw Hk Hi;
    cbn [UltraCDCWords.scan]; [exact I|].
  destruct (i <? n) eqn:C; [|now right; left].
  apply Z.ltb_lt in C.
  destruct (k >=? Z.of_nat (length src)) eqn:K.
  { left. split; [reflexivity|]. lia. }
  unfold UltraCDCWords.word_at.
  destruct (0 <=? k) eqn:A; [|lia]. destruct (k <? Z.of_nat (length src)) eqn:B; [|lia].
  cbn [andb].
  destruct (nth_error src (Z.to_nat k)) as [inw|] eqn:E.
  2:{ apply nth_error_None in E. lia. }
  assert (Hnext : forall d c m o,
             match UltraCDCWords.scan src n NormalSize fuel (i + 8) (k + 1) d c m o with
             | Return c =>
                 (c = 0 /\ 8 * Z.of_nat (length src) < n) \/ c = n \/
                 (i + 8 <= c <= n + 7 /\ c mod 8 = 0)
             | Panic => False
             | Unfinished => True
             end).
  { intros d c m o. specialize (IH (i + 8) (k + 1) d c m o ltac:(lia) ltac:(lia)).
    destruct (UltraCDCWords.scan src n NormalSize fuel (i + 8) (k + 1) d c m o);
      try exact IH. destruct IH as [IH|[IH|IH]]; [now left|now right; left|].
    right; right. lia. }
  destruct (Z.lxor outw inw =? 0).
  - destruct ((cnt + 1) mod 2 ^ 32 =? UltraCDCWords.LEST).
    + right; right. split; [lia|]. subst i.
      replace (8 * k + 8) with ((k + 1) * 8) by lia. apply Z.mod_mul. lia.
    + apply Hnext.
  - pose proof (words_slide_cut 8 i 0 dist
                  (if i =? NormalSize then UltraCDCWords.MaskL else mask) inw outw) as S.
    destruct (UltraCDCWords.slide 8 i 0 dist _ inw outw) as [c| |d'].
    + right; right. subst c. split; [lia|]. subst i.
      replace (8 * k + 8) with ((k + 1) * 8) by lia. apply Z.mod_mul. lia.
    + contradiction.
    + apply Hnext.
Qed.

(** Which mask the loop uses: the relaxed one only from an iteration with
    [i == NormalSize] on. *)
Lemma words_scan_probes_mask (fuel : nat) (i k dist cnt mask outw : Z) (p : probe) :
  i mod 8 = 0 -> i - 8 < NormalSize ->
  mask = UltraCDCWords.MaskS ->
  In p (UltraCDCWords.scan_probes src n NormalSize fuel i k dist cnt mask outw) ->
  i <= at_i p < n /\
  used_mask p = (if (NormalSize <=? at_i p) && (NormalSize mod 8 =? 0)
                 then UltraCDCWords.MaskL else UltraCDCWords.MaskS).
Proof.
  intros Hi Hns Hm. subst mask.
  assert (G : forall mask,
             mask = (if (NormalSize <=? i - 8) && (NormalSize mod 8 =? 0)
                     then UltraCDCWords.MaskL else UltraCDCWords.MaskS) ->
             In p (UltraCDCWords.scan_probes src n NormalSize fuel i k dist cnt mask outw) ->
             i <= at_i p < n /\
             used_mask p = (if (NormalSize <=? at_i p) && (NormalSize mod 8 =? 0)
                            then UltraCDCWords.MaskL else UltraCDCWords.MaskS)).
  2:{ apply G. destruct (NormalSize <=? i - 8) eqn:C; [lia|reflexivity]. }
  clear Hns. revert i k dist cnt outw Hi.
  induction fuel as [|fuel IH]; intros i k dist cnt outw Hi mask Hm H;
    cbn [UltraCDCWords.scan_probes] in H; [contradiction|].
  destruct (i <? n) eqn:C; [|contradiction]. apply Z.ltb_lt in C.
  assert (Hm' : (if i =? NormalSize then UltraCDCWords.MaskL else mask)
                = (if (NormalSize <=? i) && (NormalSize mod 8 =? 0)
                   then UltraCDCWords.MaskL else UltraCDCWords.MaskS)).
  { subst mask. destruct (i =? NormalSize) eqn:E.
    - apply Z.eqb_eq in E. subst NormalSize. rewrite Z.leb_refl, Hi. reflexivity.
    - apply Z.eqb_neq in E.
      destruct (NormalSize mod 8 =? 0) eqn:A; [|now rewrite !andb_false_r].
      apply Z.eqb_eq in A. rewrite !andb_true_r.
      destruct (NormalSize <=? i - 8) eqn:L1; destruct (NormalSize <=? i) eqn:L2;
        try reflexivity; try lia.
      exfalso. apply Z.leb_le in L2. apply Z.leb_gt in L1.
      assert (D : (i - NormalSize) mod 8 = 0).
      { rewrite Zminus_mod, Hi, A. reflexivity. }
      apply Z.mod_divide in D; [|lia]. destruct D as [q D]. lia. }
  rewrite Hm' in H.
  assert (Hi' : (i + 8) mod 8 = 0).
  { replace (i + 8) with (i + 1 * 8) by lia. now rewrite Z_mod_plus_full. }
  assert (Hm'' : (if (NormalSize <=? i) && (NormalSize mod 8 =? 0)
                  then UltraCDCWords.MaskL else UltraCDCWords.MaskS)
                 = (if (NormalSize <=? i + 8 - 8) && (NormalSize mod 8 =? 0)
                    then UltraCDCWords.MaskL else UltraCDCWords.MaskS)).
  { now replace (i + 8 - 8) with i by lia. }
  destruct (k >=? Z.of_nat (length src)); [contradiction|].
  destruct (UltraCDCWords.word_at src k) as [inw|]; [|contradiction].
  destruct (Z.lxor outw inw =? 0).
  - destruct ((cnt + 1) mod 2 ^ 32 =? UltraCDCWords.LEST); [contradiction|].
    apply (IH _ _ _ _ _ Hi' _ Hm'') in H. split; [lia|apply H].
  - apply in_app_or in H. destruct H as [H|H].
    + clear IH. revert H. generalize 0 at 1. generalize dist. generalize 8%nat.
      intros left. induction left as [|left IHl]; intros d j H;
        cbn [UltraCDCWords.slide_probes] in H; [contradiction|].
      destruct H as [H|H].
      * subst p. cbn [at_i used_mask]. split; [lia|reflexivity].
      * destruct (Z.land (uint64 d) _ =? 0); [contradiction|]. now apply IHl in H.
    + destruct (UltraCDCWords.slide 8 i 0 dist _ inw outw) as [c| |d']; try contradiction.
      apply (IH _ _ _ _ _ Hi' _ Hm'') in H. split; [lia|apply H].
Qed.

End WordScanFacts.

Lemma Validate_words_valid (o : ChunkerOpts) :
  UltraCDCWords.Validate o = None -> valid o /\ (MinSize o) mod 8 = 0.
Proof.
  unfold UltraCDCWords.Validate, valid, in_range.
  destruct o as [mn nm mx]; cbn [MinSize NormalSize MaxSize].
  rewrite <- rem8_zero_iff.
  destruct (Z.rem mn 8 =? 0) eqn:R; cbn [negb]; [|discriminate].
  apply Z.eqb_eq in R.
  repeat match goal with
         | |- context [if ?c then _ else _] => destruct c eqn:?
         end; intros; try discriminate; split_bools; repeat split; lia.
Qed.

Lemma words_clamp_long (o : ChunkerOpts) (n : Z) :
  valid o -> MinSize o < n ->
  UltraCDCWords.clamp o n = Some (Z.min n (MaxSize o), UltraCDC.effectiveNormalSize o n).
Proof. exact (clamp_long o n). Qed.

Lemma words_clamp_short (o : ChunkerOpts) (n : Z) :
  n <= MinSize o -> UltraCDCWords.clamp o n = None.
Proof. exact (clamp_short o n). Qed.

(** X13: what the word-scanning [Algorithm] does for options its
    [Validate] accepts and [n <= len(data)].  For [n <= MinSize] it
    returns [n].  For [n > MinSize] it panics when [data] has fewer than
    [MinSize + 8] bytes, and returns otherwise; what it returns is the
    clamped [n], or a multiple of 8 that is at least [MinSize + 16] and at
    most 7 above the clamped [n], or the error value 0, the latter only
    when the clamped [n] reaches past the last whole word of [data]. *)
Theorem Algorithm_words_outcome (o : ChunkerOpts) (d : slice) (n : Z) :
  UltraCDCWords.Validate o = None -> n <= len d ->
  (n <= MinSize o -> UltraCDCWords.Algorithm o d n = Return n) /\
  (MinSize o < n -> len d < MinSize o + 8 -> UltraCDCWords.Algorithm o d n = Panic) /\
  (MinSize o < n -> MinSize o + 8 <= len d ->
   exists c, UltraCDCWords.Algorithm o d n = Return c /\
     ((c = 0 /\ 8 * (len d / 8) < Z.min n (MaxSize o)) \/
      c = Z.min n (MaxSize o) \/
      (MinSize o + 16 <= c <= Z.min n (MaxSize o) + 7 /\ c mod 8 = 0))).
Proof.
  intros Hv Hn. apply Validate_words_valid in Hv. destruct Hv as [Hv Hal].
  pose proof Hv as (Hmin & _ & _ & Hord). unfold in_range in Hmin.
  assert (Hq : Z.quot (MinSize o) 8 = MinSize o / 8) by (apply Z.quot_div_nonneg; lia).
  assert (Hk : MinSize o = 8 * (MinSize o / 8)).
  { pose proof (Z.div_mod (MinSize o) 8 ltac:(lia)). lia. }
  unfold UltraCDCWords.Algorithm.
  destruct (n >? len d) eqn:C; [lia|].
  repeat split.
  - intros Hs. now rewrite words_clamp_short.
  - intros Hl Hshort. rewrite words_clamp_long by assumption.
    rewrite word_at_outside; [reflexivity|].
    rewrite bytesToUint64_count, Hq.
    clear Hq Hk C. Z.div_mod_to_equations. lia.
  - intros Hl Hlong. rewrite words_clamp_long by assumption.
    assert (Hw : 0 <= MinSize o / 8 < len d / 8).
    { clear Hq Hk C. Z.div_mod_to_equations. lia. }
    rewrite Hq, word_at_window by exact Hw.
    set (m := Z.min n (MaxSize o)).
    pose proof (words_scan_result (UltraCDCWords.bytesToUint64 d) m
                  (UltraCDC.effectiveNormalSize o n) (UltraCDCWords.fuel_for o m)
                  (MinSize o + 8) (MinSize o / 8 + 1)
                  (OnesCount64 (Z.lxor (UltraCDCWords.le_word (window d (8 * (MinSize o / 8))))
                                       UltraCDCWords.Pattern))
                  0 UltraCDCWords.MaskS
                  (UltraCDCWords.le_word (window d (8 * (MinSize o / 8))))
                  ltac:(lia) ltac:(lia)) as R.
    pose proof (words_scan_finishes (UltraCDCWords.bytesToUint64 d) m
                  (UltraCDC.effectiveNormalSize o n) (UltraCDCWords.fuel_for o m)
                  (MinSize o + 8) (MinSize o / 8 + 1)
                  (OnesCount64 (Z.lxor (UltraCDCWords.le_word (window d (8 * (MinSize o / 8))))
                                       UltraCDCWords.Pattern))
                  0 UltraCDCWords.MaskS
                  (UltraCDCWords.le_word (window d (8 * (MinSize o / 8))))) as F.
    destruct (UltraCDCWords.scan _ _ _ _ _ _ _ _ _ _) as [c| |].
    + exists c. split; [reflexivity|]. rewrite bytesToUint64_count in R.
      destruct R as [R|[R|R]]; [now left|now right; left|right; right; lia].
    + contradiction.
    + exfalso. apply F; unfold UltraCDCWords.fuel_for; subst m; try lia. reflexivity.
Qed.

Lemma Algorithm_words_outcome_on_81_zeros :
  (81 <= MinSize tiny -> UltraCDCWords.Algorithm tiny (make (zeros 81)) 81 = Return 81) /\
  (MinSize tiny < 81 -> len (make (zeros 81)) < MinSize tiny + 8 ->
   UltraCDCWords.Algorithm tiny (make (zeros 81)) 81 = Panic) /\
  (MinSize tiny < 81 -> MinSize tiny + 8 <= len (make (zeros 81)) ->
   exists c, UltraCDCWords.Algorithm tiny (make (zeros 81)) 81 = Return c /\
     ((c = 0 /\ 8 * (len (make (zeros 81)) / 8) < Z.min 81 (MaxSize tiny)) \/
      c = Z.min 81 (MaxSize tiny) \/
      (MinSize tiny + 16 <= c <= Z.min 81 (MaxSize tiny) + 7 /\ c mod 8 = 0))).
Proof.
  apply (Algorithm_words_outcome tiny (make (zeros 81)) 81).
  - reflexivity.
  - vm_compute. discriminate.
Defined.

(** X14: the mask of the word-scanning kernel.  For options its
    [Validate] accepts, every mask test at outer position [i] uses the
    relaxed mask 0x2C when the effective normal size is a multiple of 8
    and [i] has reached it, and the strict mask 0x2F in every other case:
    with a normal size off the 8-byte stride the relaxed mask is never
    used. *)
Theorem words_masks_relax_only_on_stride
  (o : ChunkerOpts) (d : slice) (n : Z) (p : probe) :
  UltraCDCWords.Validate o = None ->
  In p (UltraCDCWords.probes o d n) ->
  used_mask p =
  (if (UltraCDC.effectiveNormalSize o n <=? at_i p)
      && (UltraCDC.effectiveNormalSize o n mod 8 =? 0)
   then 0x2C else 0x2F).
Proof.
  intros Hv H. apply Validate_words_valid in Hv. destruct Hv as [Hv Hal].
  pose proof Hv as (Hmin & _ & _ & Hord). unfold in_range in Hmin.
  unfold UltraCDCWords.probes in H.
  destruct (n >? len d); [contradiction|].
  destruct (Z_le_gt_dec n (MinSize o)) as [Hs|Hl].
  { rewrite words_clamp_short in H by exact Hs. contradiction. }
  rewrite words_clamp_long in H by (assumption || lia).
  destruct (UltraCDCWords.word_at _ _); [|contradiction].
  apply words_scan_probes_mask in H; [apply H| | |reflexivity].
  - replace (MinSize o + 8) with (MinSize o + 1 * 8) by lia.
    now rewrite Z_mod_plus_full.
  - unfold UltraCDC.effectiveNormalSize.
    destruct ((MinSize o <? n) && (n <=? NormalSize o))%bool; lia.
Qed.

Lemma words_masks_relax_only_on_stride_offbeat :
  used_mask (mkProbe 104 0 32 0x2F) =
  (if (UltraCDC.effectiveNormalSize offbeat 256 <=? at_i (mkProbe 104 0 32 0x2F))
      && (UltraCDC.effectiveNormalSize offbeat 256 mod 8 =? 0)
   then 0x2C else 0x2F).
Proof.
  apply (words_masks_relax_only_on_stride offbeat striped 256 (mkProbe 104 0 32 0x2F)).
  - reflexivity.
  - apply (nth_error_In _ 32). vm_compute. reflexivity.
Defined.

(** * The word-scanning kernel against the byte-indexed one *)

Lemma hammingDistanceTable_0xAA (b : byte) :
  UltraCDCWords.hammingDistanceTable 0xAA (byte_val b) = UltraCDC.hammingDistanceTo0xAA b.
Proof.
  unfold UltraCDCWords.hammingDistanceTable, UltraCDC.hammingDistanceTo0xAA.
  now rewrite Z.lxor_comm.
Qed.

Lemma on_stride_lt_le (i m : Z) :
  i mod 8 = 0 -> m mod 8 = 0 -> (i <? m) = (i <=? m - 8).
Proof.
  intros Hi Hm.
  destruct (i <? m) eqn:A; destruct (i <=? m - 8) eqn:B; try reflexivity; exfalso;
    Z.div_mod_to_equations; lia.
Qed.

Lemma word_of_cut (i c : Z) : i mod 8 = 0 -> i <= c < i + 8 -> 8 * (c / 8) + 8 = i + 8.
Proof. intros Hi Hc. Z.div_mod_to_equations. lia. Qed.

Section Refinement.

Variable d : slice.
Variables m ns : Z.
Hypothesis m_within : m <= len d.
Hypothesis m_on_stride : m mod 8 = 0.
Hypothesis ns_on_stride : ns mod 8 = 0.

(** The inner loops: same tests, and the word-scanning one cuts at the end
    of the word where the byte-indexed one cuts inside it. *)
Lemma slide_refines (left : nat) (i j dist mask : Z) :
  8 <= i -> 0 <= j -> j + Z.of_nat left = 8 -> i + 8 <= len d ->
  UltraCDCWords.slide_probes left i j dist mask
    (UltraCDCWords.le_word (window d i)) (UltraCDCWords.le_word (window d (i - 8)))
  = UltraCDC.slide_probes d left i j dist mask /\
  match UltraCDC.slide d left i j dist mask with
  | Cut c =>
      UltraCDCWords.slide left i j dist mask
        (UltraCDCWords.le_word (window d i)) (UltraCDCWords.le_word (window d (i - 8)))
      = Cut (i + 8) /\ i <= c < i + 8 /\
      existsb hits (UltraCDC.slide_probes d left i j dist mask) = true
  | Slid x =>
      UltraCDCWords.slide left i j dist mask
        (UltraCDCWords.le_word (window d i)) (UltraCDCWords.le_word (window d (i - 8)))
      = Slid x /\
      existsb hits (UltraCDC.slide_probes d left i j dist mask) = false
  | OutOfRange => False
  end.
Proof.
  revert j dist. induction left as [|left IH]; intros j dist Hi Hj Hl Hlen;
    cbn [UltraCDCWords.slide_probes UltraCDC.slide_probes UltraCDCWords.slide UltraCDC.slide].
  - repeat split.
  - assert (Ho : nth_error (window d (i - 8)) (Z.to_nat j) = index d (i + j - 8)).
    { rewrite index_inside by lia. rewrite window_nth by lia. f_equal. lia. }
    assert (Hb : nth_error (window d i) (Z.to_nat j) = index d (i + j)).
    { rewrite index_inside by lia. rewrite window_nth by lia. f_equal. lia. }
    destruct (index_inside_some d (i + j - 8) ltac:(lia)) as [o Eo].
    destruct (index_inside_some d (i + j) ltac:(lia)) as [b Eb].
    rewrite Eo in Ho. rewrite Eb in Hb.
    assert (Ein : low_byte (Z.shiftr (UltraCDCWords.le_word (window d i)) (Z.shiftl j 3))
                  = byte_val b).
    { replace j with (Z.of_nat (Z.to_nat j)) by lia. now apply le_word_byte. }
    assert (Eout : low_byte (Z.shiftr (UltraCDCWords.le_word (window d (i - 8)))
                               (Z.shiftl j 3)) = byte_val o).
    { replace j with (Z.of_nat (Z.to_nat j)) by lia. now apply le_word_byte. }
    rewrite Ein, Eout, !hammingDistanceTable_0xAA, Eo, Eb.
    assert (Hh : hits (mkProbe i j dist mask) = (Z.land (uint64 dist) mask =? 0))
      by reflexivity.
    destruct (Z.land (uint64 dist) mask =? 0) eqn:T.
    + cbn [existsb]. rewrite Hh. repeat split; lia.
    + specialize (IH (j + 1)
                     (dist + (UltraCDC.hammingDistanceTo0xAA b - UltraCDC.hammingDistanceTo0xAA o))
                     Hi ltac:(lia) ltac:(lia) Hlen).
      destruct IH as [IHp IHs]. rewrite IHp. split; [reflexivity|].
      cbn [existsb]. rewrite Hh. cbn [orb]. exact IHs.
Qed.

(** The mask both loops have installed after their test at [i]. *)
Lemma masks_agree (i : Z) :
  i mod 8 = 0 ->
  (if i =? ns then UltraCDCWords.MaskL
   else if ns <=? i - 8 then UltraCDCWords.MaskL else UltraCDCWords.MaskS)
  = (if ns <=? i then UltraCDC.maskL else UltraCDC.maskS) /\
  (if i >=? ns then UltraCDC.maskL
   else if ns <=? i - 8 then UltraCDC.maskL else UltraCDC.maskS)
  = (if ns <=? i then UltraCDC.maskL else UltraCDC.maskS).
Proof.
  intros Hi.
  destruct (i =? ns) eqn:A; destruct (ns <=? i - 8) eqn:B; destruct (ns <=? i) eqn:C;
    destruct (i >=? ns) eqn:D; try (split; reflexivity); exfalso;
    Z.div_mod_to_equations; lia.
Qed.

Lemma scan_refines (fuel : nat) (i k dist cnt : Z) (out : list byte) :
  8 <= i -> i = 8 * k -> 0 <= cnt < 64 ->
  (i <= m - 8 -> out = window d (i - 8)) -> length out = 8%nat ->
  UltraCDCWords.scan_probes (UltraCDCWords.bytesToUint64 d) m ns fuel i k dist cnt
    (if ns <=? i - 8 then UltraCDCWords.MaskL else UltraCDCWords.MaskS)
    (UltraCDCWords.le_word out)
  = UltraCDC.scan_probes d m ns fuel i dist cnt
      (if ns <=? i - 8 then UltraCDC.maskL else UltraCDC.maskS) out /\
  match UltraCDC.scan d m ns fuel i dist cnt
          (if ns <=? i - 8 then UltraCDC.maskL else UltraCDC.maskS) out with
  | Return c =>
      UltraCDCWords.scan (UltraCDCWords.bytesToUint64 d) m ns fuel i k dist cnt
        (if ns <=? i - 8 then UltraCDCWords.MaskL else UltraCDCWords.MaskS)
        (UltraCDCWords.le_word out)
      = Return (word_cut
                  (UltraCDC.scan_probes d m ns fuel i dist cnt
                     (if ns <=? i - 8 then UltraCDC.maskL else UltraCDC.maskS) out) c)
  | Panic => False
  | Unfinished =>
      UltraCDCWords.scan (UltraCDCWords.bytesToUint64 d) m ns fuel i k dist cnt
        (if ns <=? i - 8 then UltraCDCWords.MaskL else UltraCDCWords.MaskS)
        (UltraCDCWords.le_word out)
      = Unfinished
  end.
Proof.
  revert i k dist cnt out.
  induction fuel as [|fuel IH]; intros i k dist cnt out Hi Hk Hc Hout Hlen;
    cbn [UltraCDCWords.scan_probes UltraCDC.scan_probes UltraCDCWords.scan UltraCDC.scan].
  - split; reflexivity.
  - assert (Hi8 : i mod 8 = 0).
    { subst i. rewrite Z.mul_comm. apply Z.mod_mul. lia. }
    rewrite (on_stride_lt_le i m Hi8 m_on_stride).
    destruct (i <=? m - 8) eqn:C.
    2:{ split; reflexivity. }
    apply Z.leb_le in C. specialize (Hout C).
    destruct (masks_agree i Hi8) as [MW MB]. rewrite MW, MB.
    assert (Hsrc : 0 <= k < len d / 8) by (Z.div_mod_to_equations; lia).
    rewrite bytesToUint64_count.
    destruct (k >=? len d / 8) eqn:K; [lia|].
    rewrite word_at_window by exact Hsrc. rewrite <- Hk.
    rewrite reslice_window by lia.
    rewrite words_equal_iff by (rewrite window_length by lia; exact Hlen).
    assert (Hwin : length (window d i) = 8%nat) by (apply window_length; lia).
    assert (Hnext : forall x c' o',
               0 <= c' < 64 -> (i + 8 <= m - 8 -> o' = window d (i + 8 - 8)) ->
               length o' = 8%nat ->
               UltraCDCWords.scan_probes (UltraCDCWords.bytesToUint64 d) m ns fuel
                 (i + 8) (k + 1) x c'
                 (if ns <=? i then UltraCDC.maskL else UltraCDC.maskS)
                 (UltraCDCWords.le_word o')
               = UltraCDC.scan_probes d m ns fuel (i + 8) x c'
                   (if ns <=? i then UltraCDC.maskL else UltraCDC.maskS) o' /\
               match UltraCDC.scan d m ns fuel (i + 8) x c'
                       (if ns <=? i then UltraCDC.maskL else UltraCDC.maskS) o' with
               | Return c =>
                   UltraCDCWords.scan (UltraCDCWords.bytesToUint64 d) m ns fuel
                     (i + 8) (k + 1) x c'
                     (if ns <=? i then UltraCDC.maskL else UltraCDC.maskS)
                     (UltraCDCWords.le_word o')
                   = Return (word_cut
                               (UltraCDC.scan_probes d m ns fuel (i + 8) x c'
                                  (if ns <=? i then UltraCDC.maskL else UltraCDC.maskS) o') c)
               | Panic => False
               | Unfinished =>
                   UltraCDCWords.scan (UltraCDCWords.bytesToUint64 d) m ns fuel
                     (i + 8) (k + 1) x c'
                     (if ns <=? i then UltraCDC.maskL else UltraCDC.maskS)
                     (UltraCDCWords.le_word o')
                   = Unfinished
               end).
    { intros x c' o' Hc' Ho' Hl'.
      pose proof (IH (i + 8) (k + 1) x c' o' ltac:(lia) ltac:(lia) Hc' Ho' Hl') as R.
      replace (i + 8 - 8) with i in R by lia. exact R. }
    destruct (bytes_Equal (window d i) out) eqn:E.
    + rewrite Z.mod_small by lia.
      unfold UltraCDCWords.LEST, UltraCDC.lowEntropyStringThreshold.
      destruct (cnt + 1 =? 64) eqn:L; destruct (cnt + 1 >=? 64) eqn:L'; try lia.
      * split; reflexivity.
      * apply bytes_Equal_true in E.
        apply Hnext; [lia| |exact Hlen].
        intros _. rewrite <- E. f_equal. lia.
    + subst out.
      destruct (slide_refines 8 i 0 dist
                  (if ns <=? i then UltraCDC.maskL else UltraCDC.maskS)
                  Hi ltac:(lia) ltac:(lia) ltac:(lia)) as [SP SR].
      rewrite SP.
      destruct (UltraCDC.slide d 8 i 0 dist _) as [c| |x] eqn:S.
      * destruct SR as (SW & Hcut & Hhit). rewrite SW, app_nil_r.
        split; [reflexivity|]. unfold word_cut. rewrite Hhit.
        now rewrite (word_of_cut i c Hi8 Hcut).
      * contradiction.
      * destruct SR as [SW Hmiss]. rewrite SW.
        destruct (Hnext x 0 (window d i) ltac:(lia)
                    ltac:(intros _; f_equal; lia) Hwin) as [NP NR].
        rewrite NP. split; [reflexivity|].
        destruct (UltraCDC.scan d m ns fuel (i + 8) x 0 _ (window d i)); try exact NR.
        rewrite NR. unfold word_cut. rewrite existsb_app, Hmiss. reflexivity.
Qed.

End Refinement.

(** X15: on the 8-byte stride the word-scanning kernel is the
    byte-indexed kernel with every mask-test cut rounded up to the end of
    its word.  For options the word-scanning [Validate] accepts,
    [n <= len(data)], and with the clamped [n] and [NormalSize] both
    multiples of 8: the two revisions evaluate the same mask tests (same
    positions, same [dist], same masks); the byte-indexed one returns a
    cutpoint [c], and the word-scanning one returns [8 * (c / 8) + 8] when
    one of the tests passes and [c] itself otherwise. *)
Theorem words_kernel_is_bytes_kernel_rounded_up (o : ChunkerOpts) (d : slice) (n : Z) :
  UltraCDCWords.Validate o = None -> n <= len d ->
  (Z.min n (MaxSize o)) mod 8 = 0 -> (NormalSize o) mod 8 = 0 ->
  UltraCDCWords.probes o d n = UltraCDC.probes o d n /\
  exists c,
    UltraCDC.Algorithm o d n = Return c /\
    UltraCDCWords.Algorithm o d n = Return (word_cut (UltraCDC.probes o d n) c).
Proof.
  intros Hv Hn Hm Hns. apply Validate_words_valid in Hv. destruct Hv as [Hv Hal].
  pose proof Hv as (Hmin & _ & _ & Hord). unfold in_range in Hmin.
  unfold UltraCDCWords.probes, UltraCDC.probes, UltraCDCWords.Algorithm, UltraCDC.Algorithm.
  destruct (n >? len d) eqn:C; [lia|].
  destruct (Z_le_gt_dec n (MinSize o)) as [Hs|Hl].
  { rewrite words_clamp_short, clamp_short by exact Hs.
    split; [reflexivity|]. exists n. split; reflexivity. }
  rewrite words_clamp_long, clamp_long by (assumption || lia).
  set (m := Z.min n (MaxSize o)) in *.
  set (ns := UltraCDC.effectiveNormalSize o n).
  assert (Hm8 : MinSize o + 8 <= m) by (subst m; Z.div_mod_to_equations; lia).
  assert (Hmlen : m <= len d) by lia.
  assert (Hns8 : ns mod 8 = 0).
  { subst ns. unfold UltraCDC.effectiveNormalSize.
    destruct ((MinSize o <? n) && (n <=? NormalSize o))%bool eqn:E; [|exact Hns].
    apply andb_true_iff in E. destruct E as [_ E]. apply Z.leb_le in E.
    subst m. now replace (Z.min n (MaxSize o)) with n in Hm by lia. }
  assert (Hnsl : MinSize o < ns).
  { subst ns. unfold UltraCDC.effectiveNormalSize.
    destruct ((MinSize o <? n) && (n <=? NormalSize o))%bool; lia. }
  assert (Hq : Z.quot (MinSize o) 8 = MinSize o / 8) by (apply Z.quot_div_nonneg; lia).
  assert (Hk : MinSize o = 8 * (MinSize o / 8)) by (Z.div_mod_to_equations; lia).
  rewrite Hq, word_at_window by (Z.div_mod_to_equations; lia).
  rewrite <- Hk. rewrite reslice_window by lia.
  rewrite OnesCount64_word by (apply window_length; lia).
  pose proof (scan_refines d m ns Hmlen Hm Hns8 (UltraCDC.fuel_for o m)
                (MinSize o + 8) (MinSize o / 8 + 1)
                (hamming0xAA (window d (MinSize o))) 0 (window d (MinSize o))
                ltac:(lia) ltac:(lia) ltac:(lia)
                ltac:(intros _; f_equal; lia)
                ltac:(apply window_length; lia)) as [RP RS].
  destruct (ns <=? MinSize o + 8 - 8) eqn:L; [lia|].
  change (UltraCDCWords.fuel_for o m) with (UltraCDC.fuel_for o m).
  split; [exact RP|].
  pose proof (scan_in_range d m ns Hmlen (UltraCDC.fuel_for o m) (MinSize o + 8)
                (hamming0xAA (window d (MinSize o))) 0 UltraCDC.maskS
                (window d (MinSize o)) ltac:(lia)) as NP.
  pose proof (scan_finishes d m ns (UltraCDC.fuel_for o m) (MinSize o + 8)
                (hamming0xAA (window d (MinSize o))) 0 UltraCDC.maskS
                (window d (MinSize o))) as NF.
  destruct (UltraCDC.scan d m ns _ _ _ _ _ _) as [c| |].
  - exists c. split; [reflexivity|exact RS].
  - contradiction.
  - exfalso. apply NF; unfold UltraCDC.fuel_for; try lia. reflexivity.
Qed.

Lemma words_kernel_is_bytes_kernel_rounded_up_on_early_hit :
  UltraCDCWords.probes tiny early_hit 80 = UltraCDC.probes tiny early_hit 80 /\
  exists c,
    UltraCDC.Algorithm tiny early_hit 80 = Return c /\
    UltraCDCWords.Algorithm tiny early_hit 80
    = Return (word_cut (UltraCDC.probes tiny early_hit 80) c).
Proof.
  apply (words_kernel_is_bytes_kernel_rounded_up tiny early_hit 80).
  - reflexivity.
  - vm_compute. discriminate.
  - reflexivity.
  - reflexivity.
Defined.

(** * The self-checking word-scanning kernel *)

Section CheckedFacts.

Variable d : slice.
Variables m ns : Z.
Hypothesis m_within : m <= len d.

(** The bytes the inner loop takes from the two words are the bytes of
    [data] it compares them with, so the self-check passes. *)
Lemma checked_slide_result (left : nat) (i j dist mask : Z) :
  8 <= i -> 0 <= j -> j + Z.of_nat left = 8 -> i + 8 <= len d ->
  match UltraCDCWordsChecked.slide d left i j dist mask
          (UltraCDCWords.le_word (window d i)) (UltraCDCWords.le_word (window d (i - 8))) with
  | CheckedReturn c => c = i + 8 \/ (c = 0 /\ len d < i + 16)
  | CheckedIndexPanic => False
  | CheckedWhyNot => False
  | CheckedSlid _ => True
  end.
Proof.
  revert j dist. induction left as [|left IH]; intros j dist Hi Hj Hl Hlen;
    cbn [UltraCDCWordsChecked.slide]; [exact I|].
  destruct (Z.land (uint64 dist) mask =? 0); [now left|].
  destruct (i + j + 8 >=? len d) eqn:G; [right; split; [reflexivity|lia]|].
  assert (Ho : nth_error (window d (i - 8)) (Z.to_nat j) = index d (i + j - 8)).
  { rewrite index_inside by lia. rewrite window_nth by lia. f_equal. lia. }
  assert (Hb : nth_error (window d i) (Z.to_nat j) = index d (i + j)).
  { rewrite index_inside by lia. rewrite window_nth by lia. f_equal. lia. }
  destruct (index_inside_some d (i + j - 8) ltac:(lia)) as [o Eo].
  destruct (index_inside_some d (i + j) ltac:(lia)) as [b Eb].
  rewrite Eo in Ho. rewrite Eb in Hb. rewrite Eo, Eb.
  assert (Ein : low_byte (Z.shiftr (UltraCDCWords.le_word (window d i)) (Z.shiftl j 3))
                = byte_val b).
  { replace j with (Z.of_nat (Z.to_nat j)) by lia. now apply le_word_byte. }
  assert (Eout : low_byte (Z.shiftr (UltraCDCWords.le_word (window d (i - 8)))
                             (Z.shiftl j 3)) = byte_val o).
  { replace j with (Z.of_nat (Z.to_nat j)) by lia. now apply le_word_byte. }
  rewrite Ein, Eout, !Z.eqb_refl. cbn [negb orb].
  apply IH; lia.
Qed.

Lemma checked_scan_result (fuel : nat) (i k dist cnt mask : Z) :
  8 <= i -> i = 8 * k ->
  (1 <= fuel)%nat -> m - i <= 8 * (Z.of_nat fuel - 1) ->
  match UltraCDCWordsChecked.scan d (UltraCDCWords.bytesToUint64 d) m ns fuel i k dist cnt mask
          (UltraCDCWords.le_word (window d (i - 8))) with
  | Returned c =>
      (c = 0 /\ len d < m + 8) \/ c = m \/ (i + 8 <= c < m /\ c mod 8 = 0)
  | IndexPanic => False
  | WhyNot => False
  | Unended => False
  end.
Proof.
  revert i k dist cnt mask.
  induction fuel as [|fuel IH]; intros i k dist cnt mask Hi Hk Hf Hfuel; [lia|].
  cbn [UltraCDCWordsChecked.scan].
  destruct (i <? m - 8) eqn:C; [|now right; left].
  apply Z.ltb_lt in C.
  assert (Hsrc : 0 <= k < len d / 8) by (Z.div_mod_to_equations; lia).
  rewrite bytesToUint64_count.
  destruct (k >=? len d / 8) eqn:K; [lia|].
  rewrite word_at_window by exact Hsrc. rewrite <- Hk.
  assert (Hi8 : (i + 8) mod 8 = 0).
  { subst i. replace (8 * k + 8) with ((k + 1) * 8) by lia. apply Z.mod_mul. lia. }
  assert (Hnext : forall x c' mk,
             match UltraCDCWordsChecked.scan d (UltraCDCWords.bytesToUint64 d) m ns fuel
                     (i + 8) (k + 1) x c' mk (UltraCDCWords.le_word (window d i)) with
             | Returned c =>
                 (c = 0 /\ len d < m + 8) \/ c = m \/ (i + 8 <= c < m /\ c mod 8 = 0)
             | IndexPanic => False
             | WhyNot => False
             | Unended => False
             end).
  { intros x c' mk.
    pose proof (IH (i + 8) (k + 1) x c' mk ltac:(lia) ltac:(lia) ltac:(lia) ltac:(lia)) as R.
    replace (i + 8 - 8) with i in R by lia.
    destruct (UltraCDCWordsChecked.scan _ _ _ _ _ _ _ _ _ _ _); try exact R.
    destruct R as [R|[R|R]]; [now left|now right; left|right; right; lia]. }
  destruct (Z.lxor (UltraCDCWords.le_word (window d (i - 8)))
                   (UltraCDCWords.le_word (window d i)) =? 0) eqn:E.
  - destruct ((cnt + 1) mod 2 ^ 32 =? UltraCDCWords.LEST).
    + right; right. split; [lia|exact Hi8].
    + apply Z.eqb_eq in E. apply (proj1 (Z.lxor_eq_0_iff _ _)) in E. rewrite E.
      apply Hnext.
  - pose proof (checked_slide_result 8 i 0 dist
                  (if i =? ns then UltraCDCWords.MaskL else mask)
                  Hi ltac:(lia) ltac:(lia) ltac:(lia)) as S.
    destruct (UltraCDCWordsChecked.slide d 8 i 0 dist _ _ _) as [c| | |x].
    + destruct S as [S|[S L]].
      * right; right. subst c. split; [lia|exact Hi8].
      * left. split; [exact S|lia].
    + contradiction.
    + contradiction.
    + apply Hnext.
Qed.

End CheckedFacts.

(** X16: the second word-scanning text, with its self-checks.  For
    options its [Validate] accepts and [n <= len(data)]: the call never
    reaches [panic("why not?")], because the bytes taken from the words
    are the bytes of [data]; it panics on an index exactly when
    [n > MinSize] and [data] has fewer than [MinSize + 8] bytes; and what
    it returns otherwise is the clamped [n], a multiple of 8 from
    [MinSize + 16] up to but not including the clamped [n], or the error
    value 0, the latter only when fewer than 8 bytes of [data] follow the
    clamped [n].  It never returns more than [n]. *)
Theorem Algorithm_checked_outcome (o : ChunkerOpts) (d : slice) (n : Z) :
  UltraCDCWordsChecked.Validate o = None -> n <= len d ->
  UltraCDCWordsChecked.Algorithm o d n <> WhyNot /\
  (n <= MinSize o -> UltraCDCWordsChecked.Algorithm o d n = Returned n) /\
  (MinSize o < n -> len d < MinSize o + 8 ->
   UltraCDCWordsChecked.Algorithm o d n = IndexPanic) /\
  (MinSize o < n -> MinSize o + 8 <= len d ->
   exists c, UltraCDCWordsChecked.Algorithm o d n = Returned c /\ c <= n /\
     ((c = 0 /\ len d < Z.min n (MaxSize o) + 8) \/
      c = Z.min n (MaxSize o) \/
      (MinSize o + 16 <= c < Z.min n (MaxSize o) /\ c mod 8 = 0))).
Proof.
  intros Hv Hn. apply Validate_words_valid in Hv. destruct Hv as [Hv Hal].
  pose proof Hv as (Hmin & _ & _ & Hord). unfold in_range in Hmin.
  assert (Hq : Z.quot (MinSize o) 8 = MinSize o / 8) by (apply Z.quot_div_nonneg; lia).
  assert (Hk : MinSize o = 8 * (MinSize o / 8)) by (Z.div_mod_to_equations; lia).
  assert (Short : n <= MinSize o -> UltraCDCWordsChecked.Algorithm o d n = Returned n).
  { intros Hs. unfold UltraCDCWordsChecked.Algorithm.
    destruct (n >? len d) eqn:C; [lia|]. now rewrite words_clamp_short. }
  assert (Crash : MinSize o < n -> len d < MinSize o + 8 ->
                  UltraCDCWordsChecked.Algorithm o d n = IndexPanic).
  { intros Hl Hs. unfold UltraCDCWordsChecked.Algorithm.
    destruct (n >? len d) eqn:C; [lia|]. rewrite words_clamp_long by assumption.
    rewrite word_at_outside; [reflexivity|].
    rewrite bytesToUint64_count, Hq. clear Hq Hk C. Z.div_mod_to_equations. lia. }
  assert (Long : MinSize o < n -> MinSize o + 8 <= len d ->
                 exists c, UltraCDCWordsChecked.Algorithm o d n = Returned c /\ c <= n /\
                   ((c = 0 /\ len d < Z.min n (MaxSize o) + 8) \/
                    c = Z.min n (MaxSize o) \/
                    (MinSize o + 16 <= c < Z.min n (MaxSize o) /\ c mod 8 = 0))).
  { intros Hl Hlong. unfold UltraCDCWordsChecked.Algorithm.
    destruct (n >? len d) eqn:C; [lia|]. rewrite words_clamp_long by assumption.
    rewrite Hq, word_at_window by (clear Hq Hk C; Z.div_mod_to_equations; lia).
    rewrite <- Hk. set (m := Z.min n (MaxSize o)).
    pose proof (checked_scan_result d m (UltraCDC.effectiveNormalSize o n) ltac:(lia)
                  (UltraCDCWords.fuel_for o m) (MinSize o + 8) (MinSize o / 8 + 1)
                  (OnesCount64 (Z.lxor (UltraCDCWords.le_word (window d (MinSize o)))
                                       UltraCDCWords.Pattern))
                  0 UltraCDCWords.MaskS ltac:(lia) ltac:(lia)) as R.
    replace (MinSize o + 8 - 8) with (MinSize o) in R by lia.
    unfold UltraCDCWords.fuel_for in *.
    specialize (R ltac:(lia) ltac:(lia)).
    destruct (UltraCDCWordsChecked.scan _ _ _ _ _ _ _ _ _ _ _) as [c| | |];
      try contradiction.
    exists c. split; [reflexivity|]. split; [lia|].
    destruct R as [R|[R|R]]; [now left|now right; left|right; right; lia]. }
  split.
  - destruct (Z_le_gt_dec n (MinSize o)) as [Hs|Hl].
    + rewrite Short by exact Hs. discriminate.
    + destruct (Z_lt_ge_dec (len d) (MinSize o + 8)) as [Hc|Hc].
      * rewrite Crash by lia. discriminate.
      * destruct (Long ltac:(lia) ltac:(lia)) as (c & E & _). rewrite E. discriminate.
  - repeat split; assumption.
Qed.

Lemma Algorithm_checked_outcome_on_81_zeros :
  UltraCDCWordsChecked.Algorithm tiny (make (zeros 81)) 81 <> WhyNot /\
  (81 <= MinSize tiny -> UltraCDCWordsChecked.Algorithm tiny (make (zeros 81)) 81 = Returned 81) /\
  (MinSize tiny < 81 -> len (make (zeros 81)) < MinSize tiny + 8 ->
   UltraCDCWordsChecked.Algorithm tiny (make (zeros 81)) 81 = IndexPanic) /\
  (MinSize tiny < 81 -> MinSize tiny + 8 <= len (make (zeros 81)) ->
   exists c, UltraCDCWordsChecked.Algorithm tiny (make (zeros 81)) 81 = Returned c /\ c <= 81 /\
     ((c = 0 /\ len (make (zeros 81)) < Z.min 81 (MaxSize tiny) + 8) \/
      c = Z.min 81 (MaxSize tiny) \/
      (MinSize tiny + 16 <= c < Z.min 81 (MaxSize tiny) /\ c mod 8 = 0))).
Proof.
  apply (Algorithm_checked_outcome tiny (make (zeros 81)) 81).
  - reflexivity.
  - vm_compute. discriminate.
Defined.

(** * [getCuts] *)

Lemma firstn_plus {A : Type} (a b : nat) (l : list A) :
  firstn (a + b) l = firstn a l ++ firstn b (skipn a l).
Proof.
  revert l. induction a as [|a IH]; intros [|x l]; cbn [Nat.add firstn skipn app];
    try reflexivity.
  - now rewrite firstn_nil.
  - now rewrite IH.
Qed.

(** Strictly increasing cuts within [l] delimit consecutive pieces of
    [l]. *)
Lemma chunks_concat (l : list byte) (last : Z) (cuts : list Z) :
  0 <= last -> Forall (fun g => 0 < g) (gaps last cuts) ->
  concat (chunks l last cuts)
  = firstn (Z.to_nat (last_cut last cuts - last)) (skipn (Z.to_nat last) l).
Proof.
  unfold last_cut. revert last.
  induction cuts as [|c cuts IH]; intros last H0 H; cbn [chunks concat gaps] in *.
  - cbn [List.last]. now replace (Z.to_nat (last - last)) with 0%nat by lia.
  - inversion H as [|g gs Hg Hgs]; subst.
    rewrite IH by (assumption || lia).
    assert (Hmono : c <= List.last (c :: cuts) last).
    { clear -Hgs. revert c Hgs. induction cuts as [|x cuts IHc]; intros c Hgs.
      - cbn. lia.
      - cbn [gaps] in Hgs. inversion Hgs; subst.
        change (List.last (c :: x :: cuts) last) with (List.last (x :: cuts) last).
        specialize (IHc x ltac:(assumption)). lia. }
    assert (El : List.last cuts c = List.last (c :: cuts) last).
    { clear. revert c. induction cuts as [|x cuts IHc]; intros c; [reflexivity|].
      change (List.last (c :: x :: cuts) last) with (List.last (x :: cuts) last).
      change (List.last (x :: cuts) c) with (List.last (x :: cuts) c).
      destruct cuts as [|y cuts]; [reflexivity|].
      change (List.last (x :: y :: cuts) c) with (List.last (y :: cuts) c).
      change (List.last (x :: y :: cuts) last) with (List.last (y :: cuts) last).
      clear IHc. revert y. induction cuts as [|z cuts IHz]; intros y; [reflexivity|].
      change (List.last (y :: z :: cuts) c) with (List.last (z :: cuts) c).
      change (List.last (y :: z :: cuts) last) with (List.last (z :: cuts) last).
      apply IHz. }
    rewrite El.
    replace (Z.to_nat (List.last (c :: cuts) last - last))
      with (Z.to_nat (c - last) + Z.to_nat (List.last (c :: cuts) last - c))%nat by lia.
    rewrite firstn_plus, skipn_skipn. do 3 f_equal. lia.
Qed.

Lemma last_default (x a b : Z) (l : list Z) :
  List.last (x :: l) a = List.last (x :: l) b.
Proof.
  revert x. induction l as [|y l IH]; intros x; [reflexivity|].
  change (List.last (x :: y :: l) a) with (List.last (y :: l) a).
  change (List.last (x :: y :: l) b) with (List.last (y :: l) b).
  apply IH.
Qed.

Lemma last_cut_app (last c : Z) (cuts : list Z) :
  last_cut last (c :: cuts) = last_cut c cuts.
Proof.
  unfold last_cut. destruct cuts as [|x cuts]; [reflexivity|].
  change (List.last (c :: x :: cuts) last) with (List.last (x :: cuts) last).
  apply last_default.
Qed.

Lemma reslice_prefix (s : slice) (hi : Z) :
  0 <= hi <= len s -> reslice s 0 hi = Some (firstn (Z.to_nat hi) (elems s)).
Proof.
  intros H. pose proof (cap_ge_len s). rewrite reslice_inside by lia.
  f_equal. cbn [Z.to_nat skipn]. rewrite Z.sub_0_r, firstn_app.
  unfold len in H.
  replace (Z.to_nat hi - length (elems s))%nat with 0%nat by lia.
  cbn [firstn]. now rewrite app_nil_r.
Qed.

Lemma reslice_from_inv (s s' : slice) (lo : Z) :
  reslice_from s lo = Some s' ->
  0 <= lo <= len s /\ elems s' = skipn (Z.to_nat lo) (elems s) /\ spare s' = spare s.
Proof.
  unfold reslice_from. intros H.
  destruct (0 <=? lo) eqn:A; [|discriminate].
  destruct (lo <=? len s) eqn:B; [|discriminate].
  cbn [andb] in H. inversion H; subst. cbn [elems spare]. repeat split; lia.
Qed.

Section GetCutsFacts.

Variable Algorithm : ChunkerOpts -> slice -> Z -> outcome.
Variable digest : Type.
Variable Blake3OfBytes : list byte -> digest.
Variable opt : ChunkerOpts.
(** The bytes [getCuts] was called with. *)
Variable whole : list byte.

(** What the loop adds to [cuts] and [hashmap], whatever the kernel. *)
Lemma getCuts_loop_adds (fuel : nat) (data : slice) (last j : Z)
      (cuts : list Z) (hashmap : list digest) (cuts' : list Z) (hashmap' : list digest) :
  0 <= last <= Z.of_nat (length whole) ->
  elems data = skipn (Z.to_nat last) whole ->
  getCuts_loop Algorithm digest Blake3OfBytes opt fuel data last j cuts hashmap
  = Cuts cuts' hashmap' ->
  exists new : list Z,
    cuts' = cuts ++ new /\
    Forall (fun g => 0 < g) (gaps last new) /\
    last_cut last new <= Z.of_nat (length whole) /\
    hashmap' = rev (map Blake3OfBytes (chunks whole last new)) ++ hashmap /\
    (len data - (last_cut last new - last) <= MinSize opt \/
     exists tail, Algorithm opt tail (len tail) = Return 0).
Proof.
  revert data last j cuts hashmap.
  induction fuel as [|fuel IH]; intros data last j cuts hashmap Hl He H;
    cbn [getCuts_loop] in H; [discriminate|].
  destruct (len data >? MinSize opt) eqn:C.
  2:{ inversion H; subst. exists []. rewrite app_nil_r. unfold last_cut.
      cbn [gaps chunks map rev app List.last].
      split; [reflexivity|]. split; [constructor|]. split; [lia|].
      split; [reflexivity|]. left. lia. }
  destruct (Algorithm opt data (len data)) as [offset| |] eqn:A; try discriminate.
  destruct (offset =? 0) eqn:Z0.
  { apply Z.eqb_eq in Z0. subst offset. inversion H; subst.
    exists []. rewrite app_nil_r. unfold last_cut.
    cbn [gaps chunks map rev app List.last].
    split; [reflexivity|]. split; [constructor|]. split; [lia|].
    split; [reflexivity|]. right. now exists data. }
  apply Z.eqb_neq in Z0.
  destruct (reslice data 0 offset) as [chunk|] eqn:R; [|discriminate].
  destruct (reslice_from data offset) as [data'|] eqn:F; [|discriminate].
  apply reslice_from_inv in F. destruct F as (Ho & Ee & _).
  rewrite reslice_prefix in R by lia. inversion R; subst chunk.
  assert (Hlen : len data = Z.of_nat (length whole) - last).
  { unfold len. rewrite He, length_skipn. lia. }
  apply IH in H.
  - destruct H as (new & Hc & Hg & Hlast & Hh & Htail).
    exists ((last + offset) :: new). rewrite last_cut_app. cbn [gaps chunks map rev].
    repeat split.
    + now rewrite Hc, <- app_assoc.
    + constructor; [lia|exact Hg].
    + exact Hlast.
    + rewrite Hh, He, <- app_assoc. cbn [app].
      now replace (last + offset - last) with offset by lia.
    + destruct Htail as [Ht|Ht]; [left|now right].
      replace (len data') with (len data - offset) in Ht; [lia|].
      unfold len. rewrite Ee, length_skipn. unfold len in Ho. lia.
  - lia.
  - rewrite Ee, He, skipn_skipn. f_equal. lia.
Qed.

End GetCutsFacts.

(** X17: [getCuts], whatever kernel and hash it is given.  When it returns,
    its cuts are positive and strictly increasing, none lies beyond
    [len(data)], the keys put into [hashmap] are the hashes of the pieces
    of [data] between consecutive cuts, and those pieces, concatenated,
    are the first bytes of [data] up to the last cut. *)
Theorem getCuts_cuts_delimit_the_data
  (Algorithm : ChunkerOpts -> slice -> Z -> outcome)
  (digest : Type) (Blake3OfBytes : list byte -> digest)
  (opt : ChunkerOpts) (data : slice) (cuts : list Z) (hashmap : list digest) :
  getCuts Algorithm digest Blake3OfBytes opt data = Cuts cuts hashmap ->
  Forall (fun g => 0 < g) (gaps 0 cuts) /\
  last_cut 0 cuts <= len data /\
  hashmap = rev (map Blake3OfBytes (chunks (elems data) 0 cuts)) /\
  concat (chunks (elems data) 0 cuts) = firstn (Z.to_nat (last_cut 0 cuts)) (elems data).
Proof.
  unfold getCuts. intros H.
  apply (getCuts_loop_adds _ _ _ _ (elems data)) in H; [|lia|reflexivity].
  destruct H as (new & Hc & Hg & Hl & Hh & _). cbn [app] in Hc. subst new.
  rewrite app_nil_r in Hh. repeat split; try assumption.
  rewrite chunks_concat by (assumption || lia).
  now rewrite Z.sub_0_r.
Qed.

Section GetCutsUltraCDC.

Variable digest : Type.
Variable Blake3OfBytes : list byte -> digest.
Variable opt : ChunkerOpts.
Hypothesis opt_valid : valid opt.

Lemma getCuts_loop_sizes (fuel : nat) (data : slice) (last j : Z)
      (cuts : list Z) (hashmap : list digest) (cuts' : list Z) (hashmap' : list digest) :
  getCuts_loop UltraCDC.Algorithm digest Blake3OfBytes opt fuel data last j cuts hashmap
  = Cuts cuts' hashmap' ->
  exists new : list Z,
    cuts' = cuts ++ new /\
    Forall (fun g => MinSize opt < g <= MaxSize opt) (gaps last new) /\
    0 <= len data - (last_cut last new - last) <= MinSize opt.
Proof.
  pose proof opt_valid as (Hmin & _). unfold in_range in Hmin.
  revert data last j cuts hashmap.
  induction fuel as [|fuel IH]; intros data last j cuts hashmap H;
    cbn [getCuts_loop] in H; [discriminate|].
  assert (Hnn : 0 <= len data) by (unfold len; lia).
  destruct (len data >? MinSize opt) eqn:C.
  2:{ inversion H; subst. exists []. rewrite app_nil_r. unfold last_cut.
      cbn [gaps List.last]. split; [reflexivity|]. split; [constructor|]. lia. }
  destruct (Z_lt_ge_dec (cap data) (MinSize opt + 8)) as [Hc|Hc].
  { rewrite Algorithm_initial_window_panics in H by (assumption || lia). discriminate. }
  destruct (Algorithm_long opt data (len data) opt_valid ltac:(lia) ltac:(lia) ltac:(lia))
    as (offset & A & B).
  rewrite A in H.
  destruct (offset =? 0) eqn:Z0; [lia|].
  destruct (reslice data 0 offset) as [chunk|]; [|discriminate].
  destruct (reslice_from data offset) as [data'|] eqn:F; [|discriminate].
  apply reslice_from_inv in F. destruct F as (Ho & Ee & _).
  assert (Hlen : len data' = len data - offset).
  { unfold len. rewrite Ee, length_skipn. unfold len in Ho. lia. }
  apply IH in H. destruct H as (new & Hcs & Hg & Ht).
  exists ((last + offset) :: new). rewrite last_cut_app. cbn [gaps].
  split; [now rewrite Hcs, <- app_assoc|].
  split; [constructor; [lia|exact Hg]|]. lia.
Qed.

Lemma getCuts_loop_returns (fuel : nat) (data : slice) (last j : Z)
      (cuts : list Z) (hashmap : list digest) :
  (7 <= length (spare data))%nat -> (length (elems data) < fuel)%nat ->
  exists cuts' hashmap',
    getCuts_loop UltraCDC.Algorithm digest Blake3OfBytes opt fuel data last j cuts hashmap
    = Cuts cuts' hashmap'.
Proof.
  pose proof opt_valid as (Hmin & _). unfold in_range in Hmin.
  revert data last j cuts hashmap.
  induction fuel as [|fuel IH]; intros data last j cuts hashmap Hs Hf; [lia|].
  cbn [getCuts_loop].
  destruct (len data >? MinSize opt) eqn:C; [|eauto].
  assert (Hc : MinSize opt + 8 <= cap data).
  { unfold cap, len in *. rewrite length_app. lia. }
  destruct (Algorithm_long opt data (len data) opt_valid ltac:(lia) ltac:(lia) Hc)
    as (offset & A & B).
  rewrite A. destruct (offset =? 0) eqn:Z0; [lia|].
  rewrite reslice_prefix by lia.
  unfold reslice_from.
  destruct (0 <=? offset) eqn:P; [|lia]. destruct (offset <=? len data) eqn:Q; [|lia].
  cbn [andb]. apply IH; cbn [elems spare]; [exact Hs|].
  rewrite length_skipn. unfold len in *. lia.
Qed.

End GetCutsUltraCDC.

(** X18: [getCuts] over the byte-indexed kernel with validated options.
    When it returns, every chunk (the first cut, and every difference of
    consecutive cuts) is longer than [MinSize] and at most [MaxSize], and
    what is left of [data] after the last cut is at most [MinSize] bytes:
    the loop only ends on its condition, never on the [offset == 0]
    break. *)
Theorem getCuts_chunk_sizes
  (digest : Type) (Blake3OfBytes : list byte -> digest)
  (opt : ChunkerOpts) (data : slice) (cuts : list Z) (hashmap : list digest) :
  UltraCDC.Validate opt = None ->
  getCuts UltraCDC.Algorithm digest Blake3OfBytes opt data = Cuts cuts hashmap ->
  Forall (fun g => MinSize opt < g <= MaxSize opt) (gaps 0 cuts) /\
  0 <= len data - last_cut 0 cuts <= MinSize opt.
Proof.
  intros Hv H. apply Validate_nil_valid in Hv. unfold getCuts in H.
  apply (getCuts_loop_sizes _ _ _ Hv) in H.
  destruct H as (new & Hc & Hg & Ht). cbn [app] in Hc. subst new.
  split; [exact Hg|]. lia.
Qed.

(** X19: when [getCuts] over the byte-indexed kernel returns and when it
    panics.  With validated options it returns whenever [data] has at
    least 7 bytes of capacity beyond its length, and it panics, in its
    first call of the kernel, when [data] is longer than [MinSize] and
    its capacity is below [MinSize + 8]. *)
Theorem getCuts_returns_with_spare_capacity
  (digest : Type) (Blake3OfBytes : list byte -> digest)
  (opt : ChunkerOpts) (data : slice) :
  UltraCDC.Validate opt = None ->
  (len data + 7 <= cap data ->
   exists cuts hashmap,
     getCuts UltraCDC.Algorithm digest Blake3OfBytes opt data = Cuts cuts hashmap) /\
  (MinSize opt < len data -> cap data < MinSize opt + 8 ->
   getCuts UltraCDC.Algorithm digest Blake3OfBytes opt data = CutsPanic).
Proof.
  intros Hv. apply Validate_nil_valid in Hv. split.
  - intros Hs. unfold getCuts. apply getCuts_loop_returns; [exact Hv| |lia].
    unfold len, cap in Hs. rewrite length_app in Hs. lia.
  - intros Hl Hc. unfold getCuts. cbn [getCuts_loop].
    destruct (len data >? MinSize opt) eqn:C; [|lia].
    now rewrite Algorithm_initial_window_panics by (assumption || lia).
Qed.

Lemma getCuts_cuts_delimit_the_data_on_mixed :
  Forall (fun g => 0 < g) (gaps 0 [72; 328; 400]) /\
  last_cut 0 [72; 328; 400] <= len mixed /\
  [72%nat; 256%nat; 72%nat]
  = rev (map (@length byte) (chunks (elems mixed) 0 [72; 328; 400])) /\
  concat (chunks (elems mixed) 0 [72; 328; 400])
  = firstn (Z.to_nat (last_cut 0 [72; 328; 400])) (elems mixed).
Proof.
  apply (getCuts_cuts_delimit_the_data UltraCDC.Algorithm nat (@length byte) tiny mixed
           [72; 328; 400] [72%nat; 256%nat; 72%nat]).
  vm_compute. reflexivity.
Defined.

Lemma getCuts_chunk_sizes_on_mixed :
  Forall (fun g => MinSize tiny < g <= MaxSize tiny) (gaps 0 [72; 328; 400]) /\
  0 <= len mixed - last_cut 0 [72; 328; 400] <= MinSize tiny.
Proof.
  apply (getCuts_chunk_sizes nat (@length byte) tiny mixed
           [72; 328; 400] [72%nat; 256%nat; 72%nat]).
  - reflexivity.
  - vm_compute. reflexivity.
Defined.

Lemma getCuts_returns_with_spare_capacity_on_mixed :
  (len mixed + 7 <= cap mixed ->
   exists cuts hashmap,
     getCuts UltraCDC.Algorithm nat (@length byte) tiny mixed = Cuts cuts hashmap) /\
  (MinSize tiny < len mixed -> cap mixed < MinSize tiny + 8 ->
   getCuts UltraCDC.Algorithm nat (@length byte) tiny mixed = CutsPanic).
Proof.
  apply (getCuts_returns_with_spare_capacity nat (@length byte) tiny mixed).
  reflexivity.
Defined.

(** * [getByte] *)



(** * The low-entropy cut *)

Section EqualRun.

Variable d : slice.
Variables m ns : Z.
Hypothesis m_within : m <= len d.

(** [r] more windows equal to [outBufWin] bring the run counter to the
    threshold: the scan returns after the last of them. *)
Lemma scan_equal_run (r : nat) (fuel : nat) (i dist lec mask : Z) (out : list byte) :
  (1 <= r <= fuel)%nat -> 0 <= i -> i + 8 * Z.of_nat r <= m ->
  lec + Z.of_nat r = UltraCDC.lowEntropyStringThreshold ->
  (forall t, 0 <= t < Z.of_nat r -> window d (i + 8 * t) = out) ->
  UltraCDC.scan d m ns fuel i dist lec mask out = Return (i + 8 * Z.of_nat r).
Proof.
  revert fuel i lec mask.
  induction r as [|r IH]; intros fuel i lec mask Hr Hi Hm Hlec Hw; [lia|].
  destruct fuel as [|fuel]; [lia|]. cbn [UltraCDC.scan].
  destruct (i <=? m - 8) eqn:C; [|lia].
  rewrite reslice_window by lia.
  pose proof (Hw 0 ltac:(lia)) as W0. rewrite Z.mul_0_r, Z.add_0_r in W0.
  rewrite W0, bytes_Equal_refl.
  destruct (lec + 1 >=? UltraCDC.lowEntropyStringThreshold) eqn:L.
  - assert (r = 0%nat) by lia. subst r. f_equal; lia.
  - rewrite IH; try lia.
    + f_equal; lia.
    + intros t Ht. replace (i + 8 + 8 * t) with (i + 8 * (t + 1)) by lia.
      apply Hw. lia.
Qed.

End EqualRun.

(** X21: the low-entropy cut of the byte-indexed kernel.  For validated
    options and [n <= len(data)], when the 64 windows that follow the
    first one, [data[MinSize + 8*t : MinSize + 8*t + 8]] for [t] from 1 to
    64, all equal the first window [data[MinSize : MinSize + 8]] and the
    clamped [n] leaves room for them, the call returns exactly
    [MinSize + 520]: no mask test is made on the way. *)
Theorem Algorithm_cuts_after_64_equal_windows (o : ChunkerOpts) (d : slice) (n : Z) :
  UltraCDC.Validate o = None -> n <= len d ->
  MinSize o + 520 <= Z.min n (MaxSize o) ->
  (forall t, 1 <= t <= 64 -> window d (MinSize o + 8 * t) = window d (MinSize o)) ->
  UltraCDC.Algorithm o d n = Return (MinSize o + 520) /\ UltraCDC.probes o d n = [].
Proof.
  intros Hv Hn Hroom Hw. apply Validate_nil_valid in Hv.
  pose proof Hv as (Hmin & _ & _ & Hord). unfold in_range in Hmin.
  assert (E : UltraCDC.Algorithm o d n = Return (MinSize o + 520)).
  { unfold UltraCDC.Algorithm.
    destruct (n >? len d) eqn:C; [lia|].
    rewrite clamp_long by (assumption || lia).
    rewrite reslice_window by lia.
    set (m := Z.min n (MaxSize o)) in *.
    rewrite (scan_equal_run d m _ ltac:(lia) 64); unfold UltraCDC.fuel_for;
      try (f_equal; lia); try lia; try reflexivity.
    intros t Ht. replace (MinSize o + 8 + 8 * t) with (MinSize o + 8 * (t + 1)) by lia.
    apply Hw. lia. }
  split; [exact E|].
  destruct (UltraCDC.probes o d n) as [|p ps] eqn:P; [reflexivity|exfalso].
  assert (Hin : In p (UltraCDC.probes o d n)) by (rewrite P; now left).
  assert (Hv' : UltraCDC.Validate o = None) by now apply Validate_nil_valid.
  unfold UltraCDC.probes in Hin.
  destruct (n >? len d) eqn:C; [contradiction|].
  rewrite clamp_long in Hin by (assumption || lia).
  rewrite reslice_window in Hin by lia.
  set (m := Z.min n (MaxSize o)) in *.
  assert (G : forall (r : nat) (fuel : nat) (i dist lec mask : Z),
             (1 <= r)%nat -> 0 <= i -> i + 8 * Z.of_nat r <= m ->
             lec + Z.of_nat r = UltraCDC.lowEntropyStringThreshold ->
             (forall t, 0 <= t < Z.of_nat r -> window d (i + 8 * t) = window d (MinSize o)) ->
             UltraCDC.scan_probes d m (UltraCDC.effectiveNormalSize o n) fuel i dist lec mask
               (window d (MinSize o)) = []).
  { clear Hin P E. intros r. induction r as [|r IH]; intros fuel i dist lec mask Hr Hi Hm Hlec Hww;
      [lia|].
    destruct fuel as [|fuel]; [reflexivity|]. cbn [UltraCDC.scan_probes].
    destruct (i <=? m - 8) eqn:C'; [|reflexivity].
    rewrite reslice_window by lia.
    pose proof (Hww 0 ltac:(lia)) as W0. rewrite Z.mul_0_r, Z.add_0_r in W0.
    rewrite W0, bytes_Equal_refl.
    destruct (lec + 1 >=? UltraCDC.lowEntropyStringThreshold) eqn:L; [reflexivity|].
    apply IH; try lia.
    intros t Ht. replace (i + 8 + 8 * t) with (i + 8 * (t + 1)) by lia.
    apply Hww. lia. }
  rewrite (G 64%nat) in Hin; try lia; try reflexivity; [contradiction|].
  intros t Ht. replace (MinSize o + 8 + 8 * t) with (MinSize o + 8 * (t + 1)) by lia.
  apply Hw. lia.
Qed.

Lemma Algorithm_cuts_after_64_equal_windows_of_zeros :
  UltraCDC.Algorithm roomy (make (zeros 600)) 600 = Return (MinSize roomy + 520) /\
  UltraCDC.probes roomy (make (zeros 600)) 600 = [].
Proof.
  apply (Algorithm_cuts_after_64_equal_windows roomy (make (zeros 600)) 600).
  - reflexivity.
  - vm_compute. discriminate.
  - vm_compute. discriminate.
  - intros t Ht.
    assert (E : forallb (fun k => bytes_Equal
                                    (window (make (zeros 600)) (MinSize roomy + 8 * Z.of_nat k))
                                    (window (make (zeros 600)) (MinSize roomy)))
                  (seq 1 64) = true) by (vm_compute; reflexivity).
    rewrite forallb_forall in E.
    specialize (E (Z.to_nat t) ltac:(apply in_seq; lia)).
    apply bytes_Equal_true in E. now rewrite Z2Nat.id in E by lia.
Defined.

(** * The bytes before [MinSize] *)

Section SameFrom.

Variables d1 d2 : slice.
Variables lo n : Z.
Hypothesis lo_nonneg : 0 <= lo.
Hypothesis n_within1 : n <= len d1.
Hypothesis n_within2 : n <= len d2.
Hypothesis same_from :
  forall p, lo <= p < n ->
            nth_error (elems d1) (Z.to_nat p) = nth_error (elems d2) (Z.to_nat p).

Lemma index_same_from (i : Z) : lo <= i < n -> index d1 i = index d2 i.
Proof.
  intros H. rewrite !index_inside by lia. now apply same_from.
Qed.

Lemma window_same_from (p : Z) : lo <= p -> p + 8 <= n -> window d1 p = window d2 p.
Proof.
  intros H0 H1. apply nth_error_ext. intros j.
  destruct (Nat.lt_ge_cases j 8) as [L|G].
  - rewrite !window_nth by lia. apply same_from. lia.
  - unfold window. rewrite !nth_error_firstn.
    assert (F : (j <? 8)%nat = false) by (apply Nat.ltb_ge; lia).
    now rewrite F.
Qed.

Lemma slide_same_from (left : nat) (i j dist mask : Z) :
  lo + 8 <= i -> 0 <= j -> i + j + Z.of_nat left <= n ->
  UltraCDC.slide d1 left i j dist mask = UltraCDC.slide d2 left i j dist mask.
Proof.
  revert j dist. induction left as [|left IH]; intros j dist Hi Hj Hn; cbn [UltraCDC.slide].
  - reflexivity.
  - destruct (Z.land (uint64 dist) mask =? 0); [reflexivity|].
    rewrite (index_same_from (i + j - 8)), (index_same_from (i + j)) by lia.
    destruct (index d2 (i + j - 8)); [|reflexivity].
    destruct (index d2 (i + j)); [|reflexivity].
    apply IH; lia.
Qed.

Lemma scan_same_from (normalSize : Z) (fuel : nat) (i dist lec mask : Z) (out : list byte) :
  lo + 8 <= i ->
  UltraCDC.scan d1 n normalSize fuel i dist lec mask out =
  UltraCDC.scan d2 n normalSize fuel i dist lec mask out.
Proof.
  revert i dist lec mask out.
  induction fuel as [|fuel IH]; intros i dist lec mask out Hi; cbn [UltraCDC.scan].
  - reflexivity.
  - destruct (i <=? n - 8) eqn:C; [|reflexivity].
    apply Z.leb_le in C.
    rewrite !reslice_window by lia.
    rewrite (window_same_from i) by lia.
    destruct (bytes_Equal (window d2 i) out).
    + destruct (lec + 1 >=? UltraCDC.lowEntropyStringThreshold); [reflexivity|].
      apply IH; lia.
    + rewrite (slide_same_from 8 i 0) by lia.
      destruct (UltraCDC.slide d2 8 i 0 dist _) as [c| |dist'];
        [reflexivity|reflexivity|apply IH; lia].
Qed.

End SameFrom.

(** X22: the byte-indexed kernel never looks at the bytes before
    [MinSize].  For validated options, two slices at least [n] long with
    room for the initial window, that hold the same bytes at every
    position from [MinSize] up to [n], get the same outcome, however
    their first [MinSize] bytes differ. *)
Theorem Algorithm_ignores_bytes_before_MinSize (o : ChunkerOpts) (d1 d2 : slice) (n : Z) :
  UltraCDC.Validate o = None -> n <= len d1 -> n <= len d2 ->
  MinSize o + 8 <= cap d1 -> MinSize o + 8 <= cap d2 ->
  (forall p, MinSize o <= p < n ->
             nth_error (elems d1) (Z.to_nat p) = nth_error (elems d2) (Z.to_nat p)) ->
  UltraCDC.Algorithm o d1 n = UltraCDC.Algorithm o d2 n.
Proof.
  intros Hv H1 H2 Hc1 Hc2 Hp. apply Validate_nil_valid in Hv.
  destruct (Z_le_gt_dec n (MinSize o)) as [Hs|Hl].
  { now rewrite !Algorithm_short. }
  pose proof Hv as (Hmin & _ & _ & Hord). unfold in_range in Hmin.
  unfold UltraCDC.Algorithm.
  destruct (n >? len d1) eqn:C1; [lia|]. destruct (n >? len d2) eqn:C2; [lia|].
  rewrite clamp_long by (assumption || lia).
  rewrite !reslice_inside by lia.
  set (m := Z.min n (MaxSize o)).
  assert (Hm : forall p, MinSize o <= p < m ->
                         nth_error (elems d1) (Z.to_nat p) = nth_error (elems d2) (Z.to_nat p)).
  { intros p Hpm. apply Hp. lia. }
  destruct (Z_lt_ge_dec (m - 8) (MinSize o + 8)) as [Hshort|Hlong].
  - unfold UltraCDC.fuel_for.
    destruct (Z.to_nat (m - MinSize o)) as [|f] eqn:F; [lia|].
    rewrite !scan_past_end by lia. reflexivity.
  - pose proof (reslice_window d1 (MinSize o) ltac:(lia) ltac:(lia)) as W1.
    pose proof (reslice_window d2 (MinSize o) ltac:(lia) ltac:(lia)) as W2.
    rewrite reslice_inside in W1, W2 by lia.
    inversion W1 as [W1']. inversion W2 as [W2']. rewrite W1', W2'.
    rewrite (window_same_from d1 d2 (MinSize o) m) by (assumption || lia).
    apply (scan_same_from d1 d2 (MinSize o) m); (assumption || lia).
Qed.

Lemma Algorithm_ignores_bytes_before_MinSize_on_early_hit :
  UltraCDC.Algorithm tiny early_hit 80
  = UltraCDC.Algorithm tiny (make (fill xff 64 ++ fill xaa 8 ++ zeros 8)) 80.
Proof.
  apply (Algorithm_ignores_bytes_before_MinSize tiny early_hit
           (make (fill xff 64 ++ fill xaa 8 ++ zeros 8)) 80).
  - reflexivity.
  - vm_compute. discriminate.
  - vm_compute. discriminate.
  - vm_compute. discriminate.
  - vm_compute. discriminate.
  - intros p Hp.
    assert (E : forallb (fun k => match nth_error (elems early_hit) k,
                                        nth_error (fill xff 64 ++ fill xaa 8 ++ zeros 8) k with
                                  | Some a, Some b => Byte.eqb a b
                                  | None, None => true
                                  | _, _ => false
                                  end) (seq 64 16) = true) by (vm_compute; reflexivity).
    rewrite forallb_forall in E.
    specialize (E (Z.to_nat p) ltac:(apply in_seq; cbn [MinSize tiny] in Hp; lia)).
    cbn [elems make].
    destruct (nth_error (elems early_hit) (Z.to_nat p)) as [a|];
      destruct (nth_error (fill xff 64 ++ fill xaa 8 ++ zeros 8) (Z.to_nat p)) as [b|];
      try discriminate; try reflexivity.
    apply Byte.byte_dec_bl in E. now subst.
Defined.

(** * More data after the cut *)

Section Extend.

Variable d : slice.

(** Only the comparisons of visited positions with [normalSize] matter. *)
Lemma scan_normalSize_irrelevant (m ns ns' : Z) (fuel : nat) (i dist lec mask : Z)
      (out : list byte) :
  (forall x, x <= m - 8 -> (x >=? ns) = (x >=? ns')) ->
  UltraCDC.scan d m ns fuel i dist lec mask out
  = UltraCDC.scan d m ns' fuel i dist lec mask out.
Proof.
  intros H. revert i dist lec mask out.
  induction fuel as [|fuel IH]; intros i dist lec mask out; cbn [UltraCDC.scan];
    [reflexivity|].
  destruct (i <=? m - 8) eqn:C; [|reflexivity].
  apply Z.leb_le in C. rewrite (H i C).
  destruct (reslice d i (i + 8)); [|reflexivity].
  destruct (bytes_Equal l out).
  - destruct (lec + 1 >=? UltraCDC.lowEntropyStringThreshold); [reflexivity|]. apply IH.
  - destruct (UltraCDC.slide d 8 i 0 dist _) as [c| |x]; [reflexivity|reflexivity|apply IH].
Qed.

(** A return from inside the loop is not changed by a later end of the
    loop. *)
Lemma scan_extend (m m2 ns : Z) (fuel fuel2 : nat) (i dist lec mask : Z)
      (out : list byte) (c : Z) :
  m <= m2 -> (fuel <= fuel2)%nat ->
  UltraCDC.scan d m ns fuel i dist lec mask out = Return c -> c < m ->
  UltraCDC.scan d m2 ns fuel2 i dist lec mask out = Return c.
Proof.
  intros Hm. revert fuel2 i dist lec mask out.
  induction fuel as [|fuel IH]; intros fuel2 i dist lec mask out Hf H Hc;
    cbn [UltraCDC.scan] in H; [discriminate|].
  destruct fuel2 as [|fuel2]; [lia|]. cbn [UltraCDC.scan].
  destruct (i <=? m - 8) eqn:C.
  2:{ inversion H. lia. }
  apply Z.leb_le in C. destruct (i <=? m2 - 8) eqn:C2; [|lia].
  destruct (reslice d i (i + 8)); [|discriminate].
  destruct (bytes_Equal l out).
  - destruct (lec + 1 >=? UltraCDC.lowEntropyStringThreshold); [exact H|].
    apply (IH fuel2) in H; [exact H|lia|exact Hc].
  - destruct (UltraCDC.slide d 8 i 0 dist _) as [c'| |x]; try exact H.
    apply (IH fuel2) in H; [exact H|lia|exact Hc].
Qed.

End Extend.

Lemma effective_is_nominal_where_visited (o : ChunkerOpts) (n x : Z) :
  valid o -> MinSize o < n -> x <= Z.min n (MaxSize o) - 8 ->
  (x >=? UltraCDC.effectiveNormalSize o n) = (x >=? NormalSize o).
Proof.
  intros (_ & _ & _ & Hord) Hl Hx. unfold UltraCDC.effectiveNormalSize.
  destruct ((MinSize o <? n) && (n <=? NormalSize o))%bool eqn:E; [|reflexivity].
  apply andb_true_iff in E. destruct E as [_ E]. apply Z.leb_le in E.
  destruct (x >=? n) eqn:A; destruct (x >=? NormalSize o) eqn:B; try reflexivity; lia.
Qed.

(** X23: a cut made before the end of the examined range stands when
    more of the data is examined.  For validated options and
    [n <= n2 <= len(data)]: when [Algorithm(options, data, n)] returns a
    cutpoint below the clamped [n], [Algorithm(options, data, n2)] returns
    the same cutpoint. *)
Theorem Algorithm_cut_stands_for_larger_n (o : ChunkerOpts) (d : slice) (n n2 c : Z) :
  UltraCDC.Validate o = None -> n <= n2 -> n2 <= len d ->
  UltraCDC.Algorithm o d n = Return c -> c < Z.min n (MaxSize o) ->
  UltraCDC.Algorithm o d n2 = Return c.
Proof.
  intros Hv Hn Hn2 H Hc. apply Validate_nil_valid in Hv.
  pose proof Hv as (Hmin & _ & _ & Hord). unfold in_range in Hmin.
  destruct (Z_le_gt_dec n (MinSize o)) as [Hs|Hl].
  { rewrite Algorithm_short in H by lia. inversion H. lia. }
  unfold UltraCDC.Algorithm in *.
  destruct (n >? len d) eqn:C; [lia|]. destruct (n2 >? len d) eqn:C2; [lia|].
  rewrite clamp_long in * by (assumption || lia).
  destruct (reslice d (MinSize o) (MinSize o + 8)) as [out|]; [|discriminate].
  rewrite (scan_normalSize_irrelevant d _ _ (NormalSize o)) in H
    by (intros x Hx; apply effective_is_nominal_where_visited; assumption || lia).
  rewrite (scan_normalSize_irrelevant d _ _ (NormalSize o))
    by (intros x Hx; apply effective_is_nominal_where_visited; assumption || lia).
  apply (scan_extend d (Z.min n (MaxSize o)) (Z.min n2 (MaxSize o)) _
           (UltraCDC.fuel_for o (Z.min n (MaxSize o)))); try assumption; try lia.
  unfold UltraCDC.fuel_for. lia.
Qed.

Lemma Algorithm_cut_stands_for_larger_n_on_mixed :
  UltraCDC.Algorithm tiny mixed 400 = Return 72.
Proof.
  apply (Algorithm_cut_stands_for_larger_n tiny mixed 80 400 72).
  - reflexivity.
  - lia.
  - vm_compute. discriminate.
  - vm_compute. reflexivity.
  - vm_compute. reflexivity.
Defined.

(** X24: the mask depends on the options alone.  For validated options,
    every mask test at outer position [i] uses 0x2F when
    [i < options.NormalSize] and 0x2C otherwise, whatever [n] is: the
    case [n <= normalSize] of the [switch], which lowers [normalSize] to
    [n], never changes a mask, since the scan stays below [n]. *)
Theorem masks_depend_on_NormalSize_only
  (o : ChunkerOpts) (d : slice) (n : Z) (p : probe) :
  UltraCDC.Validate o = None ->
  In p (UltraCDC.probes o d n) ->
  used_mask p = (if at_i p <? NormalSize o then 0x2F else 0x2C).
Proof.
  intros Hv H. apply Validate_nil_valid in Hv.
  unfold UltraCDC.probes in H.
  destruct (n >? len d); [contradiction|].
  destruct (Z_le_gt_dec n (MinSize o)) as [Hs|Hl].
  { rewrite clamp_short in H by exact Hs. contradiction. }
  rewrite clamp_long in H by (assumption || lia).
  destruct (reslice d (MinSize o) (MinSize o + 8)); [|contradiction].
  apply scan_probes_mask in H; [|reflexivity].
  destruct H as (Hi & _ & H). rewrite H. unfold mask_at.
  pose proof (effective_is_nominal_where_visited o n (at_i p) Hv ltac:(lia) ltac:(lia)) as E.
  destruct (at_i p <? UltraCDC.effectiveNormalSize o n) eqn:A;
    destruct (at_i p <? NormalSize o) eqn:B; try reflexivity;
    destruct (at_i p >=? UltraCDC.effectiveNormalSize o n) eqn:A';
    destruct (at_i p >=? NormalSize o) eqn:B'; try discriminate; lia.
Qed.

Lemma masks_depend_on_NormalSize_only_on_striped :
  used_mask (mkProbe 104 0 32 0x2C)
  = (if at_i (mkProbe 104 0 32 0x2C) <? NormalSize offbeat then 0x2F else 0x2C).
Proof.
  apply (masks_depend_on_NormalSize_only offbeat striped 256 (mkProbe 104 0 32 0x2C)).
  - reflexivity.
  - apply (nth_error_In _ 32). vm_compute. reflexivity.
Defined.
